(** * Arbiter service of the VeriMantle gateway

    A shallow embedding of [apps/gateway/src/services/arbiter.service.ts]
    (class [ArbiterService]) and the properties of its lock table and wait
    queue.

    Modelling conventions.
    - [Map<string, BusinessLock>] is a [gmap string BusinessLock.t]; the
      [queue] array is a [list QueueEntry.t] in array order.
    - [Date] values are milliseconds since the epoch, in [Z]; priorities are
      integers in [Z].
    - Every method of the service is [async] but contains no [await] before
      its last state access, so a call runs to completion on the event loop
      before another handler starts.  The clock readings ([new Date()],
      [Date.now()]) of one call are identified with one instant [now], a
      parameter of every method.
    - A method is a computation in the monad [M]: it reads and writes the
      service fields and either returns a value or throws.  The lines written
      by [console.log] are kept in the [console] field.
    - [Array.prototype.sort] is the stable sort ECMAScript prescribes. *)

From stdpp Require Import base strings list gmap sorting.

Local Open Scope Z_scope.

(** ** Data model (the interfaces at the top of the source file) *)

Module BusinessLock.
Record t : Type := mk {
  resource : string;
  lockedBy : string;
  acquiredAt : Z;
  expiresAt : Z;
  priority : Z;
}.
End BusinessLock.

Inductive Operation : Type := read | write | exclusive.

Module CoordinationRequest.
Record t : Type := mk {
  agentId : string;
  resource : string;
  operation : Operation;
  expectedDurationMs : Z;
  priority : Z;
}.
End CoordinationRequest.

Module QueueEntry.
Record t : Type := mk {
  agentId : string;
  resource : string;
  priority : Z;
  requestedAt : Z;
}.
End QueueEntry.

#[global] Instance BusinessLock_eq_dec : EqDecision BusinessLock.t.
Proof. solve_decision. Defined.

#[global] Instance QueueEntry_eq_dec : EqDecision QueueEntry.t.
Proof. solve_decision. Defined.

(** What a numeric field of a [CoordinationResult] can hold at run time.
    [getQueuePosition] is an [async] method, so a call that is not awaited
    evaluates to a promise (here already resolved with its number), and
    arithmetic on anything but a number is [NaN]. *)
Inductive JsValue : Type :=
  | JsNumber (n : Z)
  | JsNaN
  | JsPromise (resolved : Z).

(** The JavaScript [v * k] for a numeric literal [k]. *)
Definition js_times (v : JsValue) (k : Z) : JsValue :=
  match v with
  | JsNumber n => JsNumber (n * k)
  | JsNaN => JsNaN
  | JsPromise _ => JsNaN
  end.

Module CoordinationResult.
Record t : Type := mk {
  granted : bool;
  lock : option BusinessLock.t;
  queuePosition : option JsValue;
  estimatedWaitMs : option JsValue;
}.
End CoordinationResult.

Inductive Exception : Type :=
  | ConflictException (message : string).

(** ** Array helpers *)

(** [Array.prototype.sort(cmp)]: a stable sort (ECMAScript 2019); [cmp a b <= 0]
    keeps [a] before [b]. *)
Fixpoint sort_insert {A : Type} (cmp : A → A → Z) (x : A) (l : list A) : list A :=
  match l with
  | [] => [x]
  | y :: l' =>
      if decide (cmp x y ≤ 0) then x :: y :: l' else y :: sort_insert cmp x l'
  end.

Definition Array_sort {A : Type} (cmp : A → A → Z) (l : list A) : list A :=
  foldr (sort_insert cmp) [] l.

(** [Array.prototype.find] and [Array.prototype.findIndex]. *)
Definition Array_find {A : Type} (P : A → Prop) `{∀ x, Decision (P x)}
    (l : list A) : option A :=
  snd <$> list_find P l.

Definition Array_findIndex {A : Type} (P : A → Prop) `{∀ x, Decision (P x)}
    (l : list A) : Z :=
  match list_find P l with
  | Some (i, _) => Z.of_nat i
  | None => -1
  end.

(** [Array.prototype.splice(index, 1)] for [0 <= index]. *)
Definition Array_splice1 {A : Type} (index : Z) (l : list A) : list A :=
  delete (Z.to_nat index) l.

(** ** Service state and the monad of its methods *)

Record State : Type := mkState {
  locks : gmap string BusinessLock.t;
  queue : list QueueEntry.t;
  console : list string;
}.

Definition init : State :=
  {| locks := ∅; queue := []; console := [] |}.

Inductive Outcome (A : Type) : Type :=
  | Return (a : A)
  | Throw (e : Exception).
Arguments Return {A} a.
Arguments Throw {A} e.

Definition M (A : Type) : Type := State → Outcome A * State.

Definition ret {A : Type} (a : A) : M A := λ s, (Return a, s).

Definition bind {A B : Type} (m : M A) (k : A → M B) : M B :=
  λ s, match m s with
       | (Return a, s') => k a s'
       | (Throw e, s') => (Throw e, s')
       end.

Definition throw {A : Type} (e : Exception) : M A := λ s, (Throw e, s).

Notation "'let!' x ':=' m 'in' k" := (bind m (λ x, k))
  (at level 10, x name, m at level 100, k at level 200).
Notation "m ';;' k" := (bind m (λ _, k))
  (at level 100, k at level 200, right associativity).

Definition locks_get (resource : string) : M (option BusinessLock.t) :=
  λ s, (Return (locks s !! resource), s).

Definition locks_set (resource : string) (lock : BusinessLock.t) : M unit :=
  λ s, (Return tt,
        {| locks := <[resource := lock]> (locks s);
           queue := queue s; console := console s |}).

Definition locks_delete (resource : string) : M unit :=
  λ s, (Return tt,
        {| locks := delete resource (locks s);
           queue := queue s; console := console s |}).

Definition queue_get : M (list QueueEntry.t) :=
  λ s, (Return (queue s), s).

Definition queue_put (q : list QueueEntry.t) : M unit :=
  λ s, (Return tt, {| locks := locks s; queue := q; console := console s |}).

Definition console_log (line : string) : M unit :=
  λ s, (Return tt,
        {| locks := locks s; queue := queue s;
           console := console s ++ [line] |}).

(** ** The methods of [ArbiterService] *)

Section ArbiterService.

(** The instant of the call. *)
Variable now : Z.

(** The predicate [q => q.agentId === agentId && q.resource === resource]. *)
Definition entry_of (agentId resource : string) (q : QueueEntry.t) : Prop :=
  QueueEntry.agentId q = agentId ∧ QueueEntry.resource q = resource.

(** The predicate [q => q.resource === resource]. *)
Definition entry_for (resource : string) (q : QueueEntry.t) : Prop :=
  QueueEntry.resource q = resource.

#[global] Instance entry_of_dec a r q : Decision (entry_of a r q).
Proof. unfold entry_of. apply _. Defined.

#[global] Instance entry_for_dec r q : Decision (entry_for r q).
Proof. unfold entry_for. apply _. Defined.

(** The comparator [(a, b) => b.priority - a.priority]. *)
Definition by_priority (a b : QueueEntry.t) : Z :=
  QueueEntry.priority b - QueueEntry.priority a.

Definition getLockStatus (resource : string) : M (option BusinessLock.t) :=
  let! lock := locks_get resource in
  match lock with
  | Some lock =>
      if decide (BusinessLock.expiresAt lock > now) then ret (Some lock)
      else ret None
  | None => ret None
  end.

Definition getQueuePosition (agentId resource : string) : M Z :=
  let! q := queue_get in
  let index := Array_findIndex (entry_of agentId resource) q in
  ret (if decide (index = -1) then 0 else index + 1).

Definition addToQueue (request : CoordinationRequest.t) : M unit :=
  let! q := queue_get in
  let existing :=
    Array_find (entry_of (CoordinationRequest.agentId request)
                         (CoordinationRequest.resource request)) q in
  match existing with
  | None =>
      let pushed :=
        q ++ [ {| QueueEntry.agentId := CoordinationRequest.agentId request;
                  QueueEntry.resource := CoordinationRequest.resource request;
                  QueueEntry.priority := CoordinationRequest.priority request;
                  QueueEntry.requestedAt := now |} ] in
      queue_put (Array_sort by_priority pushed)
  | Some _ => ret tt
  end.

Definition removeFromQueue (agentId resource : string) : M unit :=
  let! q := queue_get in
  let index := Array_findIndex (entry_of agentId resource) q in
  if decide (index ≠ -1) then queue_put (Array_splice1 index q)
  else ret tt.

(** [priority = 0] is a default parameter: [None] is an omitted argument. *)
Definition acquireLock (agentId resource : string) (priority : option Z)
    : M (option BusinessLock.t) :=
  let priority := default 0 priority in
  let! existingLock := locks_get resource in
  let! proceed :=
    match existingLock with
    | Some existingLock =>
        if decide (BusinessLock.expiresAt existingLock > now
                   ∧ BusinessLock.lockedBy existingLock ≠ agentId)
        then
          if decide (priority > BusinessLock.priority existingLock) then
            console_log ("Agent " +:+ agentId +:+ " preempted lock on "
                         +:+ resource +:+ " from "
                         +:+ BusinessLock.lockedBy existingLock);;
            ret true
          else ret false
        else ret true
    | None => ret true
    end in
  if proceed : bool then
    let lock :=
      {| BusinessLock.resource := resource;
         BusinessLock.lockedBy := agentId;
         BusinessLock.acquiredAt := now;
         BusinessLock.expiresAt := now + 30000;
         BusinessLock.priority := priority |} in
    locks_set resource lock;;
    removeFromQueue agentId resource;;
    ret (Some lock)
  else ret None.

Definition requestCoordination (request : CoordinationRequest.t)
    : M CoordinationResult.t :=
  let agentId := CoordinationRequest.agentId request in
  let resource := CoordinationRequest.resource request in
  let grant : M CoordinationResult.t :=
    let! lock := acquireLock agentId resource
                   (Some (CoordinationRequest.priority request)) in
    match lock with
    | Some lock =>
        ret {| CoordinationResult.granted := true;
               CoordinationResult.lock := Some lock;
               CoordinationResult.queuePosition := None;
               CoordinationResult.estimatedWaitMs := None |}
    | None =>
        ret {| CoordinationResult.granted := false;
               CoordinationResult.lock := None;
               CoordinationResult.queuePosition := None;
               CoordinationResult.estimatedWaitMs := None |}
    end in
  let! existingLock := locks_get resource in
  match existingLock with
  | Some existingLock =>
      if decide (BusinessLock.expiresAt existingLock > now) then
        if decide (BusinessLock.lockedBy existingLock ≠ agentId) then
          addToQueue request;;
          (* [getQueuePosition] is called without [await] *)
          let! resolved := getQueuePosition agentId resource in
          let position := JsPromise resolved in
          ret {| CoordinationResult.granted := false;
                 CoordinationResult.lock := None;
                 CoordinationResult.queuePosition := Some position;
                 CoordinationResult.estimatedWaitMs :=
                   Some (js_times position 5000) |}
        else
          ret {| CoordinationResult.granted := true;
                 CoordinationResult.lock := Some existingLock;
                 CoordinationResult.queuePosition := None;
                 CoordinationResult.estimatedWaitMs := None |}
      else grant
  | None => grant
  end.

Definition releaseLock (agentId resource : string) : M bool :=
  let! lock := locks_get resource in
  match lock with
  | None => ret false
  | Some lock =>
      if decide (BusinessLock.lockedBy lock ≠ agentId) then
        throw (ConflictException
                 ("Lock on " +:+ resource +:+ " is owned by "
                  +:+ BusinessLock.lockedBy lock +:+ ", not " +:+ agentId))
      else
        locks_delete resource;;
        let! q := queue_get in
        match Array_find (entry_for resource) q with
        | Some nextInQueue =>
            acquireLock (QueueEntry.agentId nextInQueue)
                        (QueueEntry.resource nextInQueue)
                        (Some (QueueEntry.priority nextInQueue));;
            ret true
        | None => ret true
        end
  end.

End ArbiterService.

(** ** Executing calls *)

Inductive Call : Type :=
  | Coordinate (request : CoordinationRequest.t)
  | Acquire (agentId resource : string) (priority : option Z)
  | Release (agentId resource : string)
  | Status (resource : string)
  | Position (agentId resource : string).

(** The state a call leaves behind (a thrown exception keeps the state it
    was thrown in). *)
Definition step (now : Z) (c : Call) (s : State) : State :=
  match c with
  | Coordinate request => snd (requestCoordination now request s)
  | Acquire agentId resource priority =>
      snd (acquireLock now agentId resource priority s)
  | Release agentId resource => snd (releaseLock now agentId resource s)
  | Status resource => snd (getLockStatus now resource s)
  | Position agentId resource => snd (getQueuePosition agentId resource s)
  end.

(** A history is a list of calls, each with the instant it ran at; [run]
    replays it on the service as constructed. *)
Definition run_from (s : State) (history : list (Z * Call)) : State :=
  foldl (λ s call, step (fst call) (snd call) s) s history.

Definition run (history : list (Z * Call)) : State := run_from init history.

(** The clock never goes back along the history. *)
Definition chronological (history : list (Z * Call)) : Prop :=
  Sorted Z.le (fst <$> history).

(** The lock a grant to [agentId] writes at instant [now]. *)
Definition granted_lock (now : Z) (agentId resource : string) (priority : Z)
    : BusinessLock.t :=
  {| BusinessLock.resource := resource;
     BusinessLock.lockedBy := agentId;
     BusinessLock.acquiredAt := now;
     BusinessLock.expiresAt := now + 30000;
     BusinessLock.priority := priority |}.

(** The entry [addToQueue] pushes for a request at instant [now]. *)
Definition entry_of_request (now : Z) (request : CoordinationRequest.t)
    : QueueEntry.t :=
  {| QueueEntry.agentId := CoordinationRequest.agentId request;
     QueueEntry.resource := CoordinationRequest.resource request;
     QueueEntry.priority := CoordinationRequest.priority request;
     QueueEntry.requestedAt := now |}.

(** ** Specification-side notions *)

(** The rank the specification gives [position_of]: the 1-indexed rank of
    the caller's entry among the entries queued for that same resource, and
    [0] when there is none. *)
Definition rank_among_resource (agentId resource : string)
    (q : list QueueEntry.t) : Z :=
  match list_find (λ e, QueueEntry.agentId e = agentId)
                  (filter (entry_for resource) q) with
  | Some (i, _) => Z.of_nat i + 1
  | None => 0
  end.

(** The entries the specification calls "ahead of the request": those
    before the caller's entry among the entries queued for the resource. *)
Definition entries_ahead (agentId resource : string)
    (q : list QueueEntry.t) : list QueueEntry.t :=
  let for_resource := filter (entry_for resource) q in
  match list_find (λ e, QueueEntry.agentId e = agentId) for_resource with
  | Some (i, _) => take i for_resource
  | None => for_resource
  end.

(** The estimate the specification asks for: the sum of the remaining TTLs
    of the entries ahead, for an assignment [remaining_ttl] of a remaining
    TTL to each entry. *)
Definition sum_remaining_ttls (remaining_ttl : QueueEntry.t → Z)
    (ahead : list QueueEntry.t) : Z :=
  foldr (λ e acc, remaining_ttl e + acc) 0 ahead.

(** The two ways [releaseLock] refuses a release: the [ConflictException]
    (the specification's [Conflict]) and the result [{ released: false }]
    (its [NotHeld]). *)
Inductive refused : Outcome bool → Prop :=
  | refused_conflict message : refused (Throw (ConflictException message))
  | refused_not_held : refused (Return false).

(** ** Invariants of the service state *)

(** The pair a queue entry is looked up by. *)
Definition entry_key (e : QueueEntry.t) : string * string :=
  (QueueEntry.agentId e, QueueEntry.resource e).

(** The order [Array_sort by_priority] establishes: no entry is behind one of
    lower priority. *)
Definition higher_first (a b : QueueEntry.t) : Prop :=
  QueueEntry.priority b ≤ QueueEntry.priority a.

(** Priority descending, then [requestedAt] ascending. *)
Definition served_before (a b : QueueEntry.t) : Prop :=
  QueueEntry.priority b < QueueEntry.priority a
  ∨ (QueueEntry.priority b = QueueEntry.priority a
     ∧ QueueEntry.requestedAt a ≤ QueueEntry.requestedAt b).

(** Where [x] ends up when it is pushed on a queue in [higher_first] order
    and the queue is sorted again: behind every entry of at least its
    priority. *)
Fixpoint settle (x : QueueEntry.t) (q : list QueueEntry.t)
    : list QueueEntry.t :=
  match q with
  | [] => [x]
  | y :: q' =>
      if decide (QueueEntry.priority x ≤ QueueEntry.priority y)
      then y :: settle x q'
      else x :: y :: q'
  end.

(** What holds of the state after any history. *)
Record well_formed (s : State) : Prop := {
  wf_keyed :
    ∀ key lock, locks s !! key = Some lock → BusinessLock.resource lock = key;
  wf_nodup : NoDup (entry_key <$> queue s);
  wf_sorted : StronglySorted higher_first (queue s);
}.

(** What holds in addition when the clock never went back and stands at
    [clock]. *)
Record in_arrival_order (clock : Z) (s : State) : Prop := {
  arrival_sorted : StronglySorted served_before (queue s);
  arrival_past : Forall (λ e, QueueEntry.requestedAt e ≤ clock) (queue s);
}.

(** The lock entries recorded for [resource], as [(key, lock)] pairs of the
    lock table. *)
Definition lock_entries (resource : string) (s : State)
    : list (string * BusinessLock.t) :=
  filter (λ entry, BusinessLock.resource (snd entry) = resource)
         (map_to_list (locks s)).

(** ** Scenarios *)

Definition request (agentId resource : string) (priority : Z)
    : CoordinationRequest.t :=
  {| CoordinationRequest.agentId := agentId;
     CoordinationRequest.resource := resource;
     CoordinationRequest.operation := write;
     CoordinationRequest.expectedDurationMs := 5000;
     CoordinationRequest.priority := priority |}.

(** [a1] holds ["db:accounts"] at priority 5 since instant 0. *)
Definition held_by_a1 : State :=
  run [(0, Acquire "a1" "db:accounts" (Some 5))].

(** [a2] is queued for ["db:cards"] at priority 10 and then [a3] for
    ["db:accounts"] at priority 5, each behind a live holder. *)
Definition two_resources : State :=
  run [(0, Acquire "a1" "db:accounts" (Some 5));
       (0, Acquire "a4" "db:cards" (Some 5));
       (1000, Coordinate (request "a2" "db:cards" 10));
       (2000, Coordinate (request "a3" "db:accounts" 5))].

(** [a2] asks for coordination on ["db:accounts"] at priority 10 while [a1]
    holds it at priority 5. *)
Definition a2_behind_a1 : Outcome CoordinationResult.t * State :=
  requestCoordination 1000 (request "a2" "db:accounts" 10) held_by_a1.

(** [a3] queued behind [a1] and was promoted when [a1] released. *)
Definition a3_promoted : State :=
  run [(0, Acquire "a1" "db:accounts" (Some 5));
       (1000, Coordinate (request "a3" "db:accounts" 5));
       (2000, Release "a1" "db:accounts")].

(** [a2] is queued for ["db:accounts"] at priority 1 since instant 1000. *)
Definition a2_queued : State :=
  run [(0, Acquire "a1" "db:accounts" (Some 5));
       (1000, Coordinate (request "a2" "db:accounts" 1))].

(** ** The controller ([apps/gateway/src/controllers/arbiter.controller.ts]) *)

Module AcquireLockDto.
Record t : Type := mk {
  agentId : string;
  resource : string;
  priority : option Z;
}.
End AcquireLockDto.

Module ReleaseLockDto.
Record t : Type := mk {
  agentId : string;
  resource : string;
}.
End ReleaseLockDto.

(** The body of [GET arbiter/queue]: [{ agentId, resource, position }]. *)
Module QueuePositionBody.
Record t : Type := mk {
  agentId : string;
  resource : string;
  position : Z;
}.
End QueuePositionBody.

Module ArbiterController.

(** [CoordinateDto] has the fields of [CoordinationRequest]; the handler
    passes the object on as it is. *)
Definition coordinate (now : Z) (dto : CoordinationRequest.t)
    : M CoordinationResult.t :=
  requestCoordination now dto.

Definition acquireLock (now : Z) (dto : AcquireLockDto.t)
    : M (option BusinessLock.t) :=
  acquireLock now (AcquireLockDto.agentId dto) (AcquireLockDto.resource dto)
    (AcquireLockDto.priority dto).

Definition releaseLock (now : Z) (dto : ReleaseLockDto.t) : M bool :=
  releaseLock now (ReleaseLockDto.agentId dto) (ReleaseLockDto.resource dto).

Definition getLockStatus (now : Z) (resource : string)
    : M (option BusinessLock.t) :=
  getLockStatus now resource.

(** This handler awaits the position. *)
Definition getQueuePosition (agentId resource : string)
    : M QueuePositionBody.t :=
  let! position := getQueuePosition agentId resource in
  ret {| QueuePositionBody.agentId := agentId;
         QueuePositionBody.resource := resource;
         QueuePositionBody.position := position |}.

End ArbiterController.

(** ** Notions used by the further properties *)

(** The resource a call names. *)
Definition resource_of (c : Call) : string :=
  match c with
  | Coordinate request => CoordinationRequest.resource request
  | Acquire _ resource _ => resource
  | Release _ resource => resource
  | Status resource => resource
  | Position _ resource => resource
  end.

(** The line [acquireLock] logs when [agentId] preempts [holder]. *)
Definition preemption_line (agentId resource holder : string) : string :=
  "Agent " +:+ agentId +:+ " preempted lock on " +:+ resource +:+ " from "
  +:+ holder.

(** Every queued entry waits behind a recorded lock of another caller. *)
Definition waiting_behind_holder (s : State) : Prop :=
  ∀ e, e ∈ queue s →
    ∃ held, locks s !! QueueEntry.resource e = Some held
            ∧ BusinessLock.lockedBy held ≠ QueueEntry.agentId e.

(** ** The methods, equation by equation *)

Lemma state_eta s :
  {| locks := locks s; queue := queue s; console := console s |} = s.
Proof. by destruct s. Qed.

Lemma getLockStatus_eq now resource s :
  getLockStatus now resource s =
    (Return (match locks s !! resource with
             | Some lock =>
                 if decide (BusinessLock.expiresAt lock > now) then Some lock
                 else None
             | None => None
             end), s).
Proof.
  unfold getLockStatus, bind, locks_get, ret.
  destruct (locks s !! resource) as [lock|]; [|done].
  by destruct (decide _).
Qed.

Lemma removeFromQueue_eq agentId resource s :
  removeFromQueue agentId resource s =
    (Return tt,
     {| locks := locks s;
        queue := match list_find (entry_of agentId resource) (queue s) with
                 | Some (i, _) => delete i (queue s)
                 | None => queue s
                 end;
        console := console s |}).
Proof.
  unfold removeFromQueue, bind, queue_get, queue_put, ret, Array_findIndex,
    Array_splice1.
  destruct (list_find _ _) as [[i e]|].
  - destruct (decide _) as [_|Hn]; [|lia]. by rewrite Nat2Z.id.
  - destruct (decide _) as [Hn|_]; [done|]. by rewrite state_eta.
Qed.

Lemma acquireLock_granted now agentId resource priority s :
  (∀ lock, locks s !! resource = Some lock →
     BusinessLock.expiresAt lock > now →
     BusinessLock.lockedBy lock ≠ agentId →
     default 0 priority > BusinessLock.priority lock) →
  ∃ lines,
    acquireLock now agentId resource priority s =
      (Return (Some (granted_lock now agentId resource (default 0 priority))),
       {| locks := <[resource :=
                      granted_lock now agentId resource (default 0 priority)]>
                     (locks s);
          queue := match list_find (entry_of agentId resource) (queue s) with
                   | Some (i, _) => delete i (queue s)
                   | None => queue s
                   end;
          console := console s ++ lines |}).
Proof.
  intros Hpre.
  unfold acquireLock, bind at 1 2, locks_get.
  destruct (locks s !! resource) as [lock|] eqn:Hlock.
  - destruct (decide (_ ∧ _)) as [[Hlive Hother]|Hfree].
    + destruct (decide (_ > _)) as [_|Hle];
        [|by specialize (Hpre lock eq_refl Hlive Hother)].
      eexists [_]. unfold bind, console_log, ret, locks_set.
      by rewrite removeFromQueue_eq.
    + exists []. unfold bind, ret, locks_set.
      rewrite removeFromQueue_eq. simpl. by rewrite app_nil_r.
  - exists []. unfold bind, ret, locks_set.
    rewrite removeFromQueue_eq. simpl. by rewrite app_nil_r.
Qed.

Lemma acquireLock_denied now agentId resource priority s lock :
  locks s !! resource = Some lock →
  BusinessLock.expiresAt lock > now →
  BusinessLock.lockedBy lock ≠ agentId →
  default 0 priority ≤ BusinessLock.priority lock →
  acquireLock now agentId resource priority s = (Return None, s).
Proof.
  intros Hlock Hlive Hother Hle.
  unfold acquireLock, bind at 1 2, locks_get. rewrite Hlock.
  destruct (decide (_ ∧ _)) as [_|Hn]; [|by destruct Hn].
  destruct (decide (_ > _)) as [Hgt|_]; [lia|done].
Qed.

(** What [releaseLock] does when the caller is the recorded holder: the entry
    is deleted and the first queued entry for the resource, if any, is granted
    the lock and spliced out of the queue. *)
Lemma releaseLock_by_holder now agentId resource s lock :
  locks s !! resource = Some lock →
  BusinessLock.lockedBy lock = agentId →
  releaseLock now agentId resource s =
    (Return true,
     match list_find (entry_for resource) (queue s) with
     | Some (i, next) =>
         {| locks := <[resource :=
                        granted_lock now (QueueEntry.agentId next) resource
                                     (QueueEntry.priority next)]> (locks s);
            queue := delete i (queue s);
            console := console s |}
     | None =>
         {| locks := delete resource (locks s);
            queue := queue s;
            console := console s |}
     end).
Proof.
  intros Hlock Hholder.
  unfold releaseLock, bind at 1, locks_get. rewrite Hlock.
  destruct (decide _) as [Hne|_]; [done|].
  unfold bind at 1 2, locks_delete, queue_get, Array_find. simpl.
  destruct (list_find (entry_for resource) (queue s)) as [[i next]|] eqn:Hfind;
    simpl; [|done].
  pose proof Hfind as (Hi & Hfor & Hfirst)%list_find_Some.
  unfold entry_for in Hfor.
  unfold bind at 1, acquireLock, bind at 1 2, locks_get. simpl.
  rewrite Hfor, lookup_delete_eq. unfold bind, ret, locks_set.
  rewrite removeFromQueue_eq. simpl.
  assert (list_find (entry_of (QueueEntry.agentId next) resource) (queue s)
          = Some (i, next)) as ->.
  { apply list_find_Some. split_and!; [done|done|].
    intros j y Hj Hlt [_ Hy]. by apply (Hfirst j y). }
  by rewrite insert_delete_eq.
Qed.

Lemma releaseLock_unlocked now agentId resource s :
  locks s !! resource = None →
  releaseLock now agentId resource s = (Return false, s).
Proof.
  intros Hlock. unfold releaseLock, bind, locks_get. by rewrite Hlock.
Qed.

Lemma releaseLock_conflict now agentId resource s lock :
  locks s !! resource = Some lock →
  BusinessLock.lockedBy lock ≠ agentId →
  releaseLock now agentId resource s =
    (Throw (ConflictException
              ("Lock on " +:+ resource +:+ " is owned by "
               +:+ BusinessLock.lockedBy lock +:+ ", not " +:+ agentId)), s).
Proof.
  intros Hlock Hne. unfold releaseLock, bind, locks_get. rewrite Hlock.
  by destruct (decide _).
Qed.

(** ** C6: lock status *)

(** C6. [getLockStatus] never changes the state; it returns [null] whenever
    the stored lock's [expiresAt] is at or before the current instant, although
    the entry is still in the lock table afterwards; and it returns a lock
    exactly when that lock is stored for the resource and still live. *)
Theorem getLockStatus_lazy_expiry now resource s :
  snd (getLockStatus now resource s) = s
  ∧ (∀ lock,
       locks s !! resource = Some lock →
       BusinessLock.expiresAt lock ≤ now →
       fst (getLockStatus now resource s) = Return None
       ∧ locks (snd (getLockStatus now resource s)) !! resource = Some lock)
  ∧ (∀ lock,
       fst (getLockStatus now resource s) = Return (Some lock)
       ↔ locks s !! resource = Some lock ∧ now < BusinessLock.expiresAt lock).
Proof.
  rewrite getLockStatus_eq. simpl. split_and!; [done| |].
  - intros lock -> Hexp. split; [|done].
    destruct (decide _); [lia|done].
  - intros lock. destruct (locks s !! resource) as [lock'|].
    + destruct (decide _) as [Hlive|Hdead].
      * split; [intros [= ->]; split; [done|lia] | by intros [[= ->] _]].
      * split; [done | intros [[= ->] ?]; lia].
    + split; [done | by intros [? _]].
Qed.

Lemma getLockStatus_lazy_expiry_witness :
  fst (getLockStatus 30000 "customer:123"
         (snd (acquireLock 0 "agent-1" "customer:123" (Some 10) init)))
  = Return None
  ∧ locks (snd (getLockStatus 30000 "customer:123"
                  (snd (acquireLock 0 "agent-1" "customer:123" (Some 10) init))))
      !! "customer:123"
    = Some (granted_lock 0 "agent-1" "customer:123" 10).
Proof.
  apply (getLockStatus_lazy_expiry 30000 "customer:123"
           (snd (acquireLock 0 "agent-1" "customer:123" (Some 10) init))).
  - vm_compute. reflexivity.
  - vm_compute. discriminate.
Defined.

(** ** C2: the grant policy of [acquireLock] *)

(** C2. Let [requested] be the priority of the call, [0] when the argument
    is omitted.  If no live lock exists for the resource, [acquireLock]
    returns a granted lock and records it.  If a live lock of a different
    caller exists, a strictly higher priority is granted the lock, which
    replaces the holder's entry; any other priority is denied with [null] and
    changes nothing; so the call is granted exactly when the priority
    strictly exceeds the holder's, and an equal priority is denied. *)
Theorem acquireLock_grant_policy now agentId resource priority s :
  let requested := default 0 priority in
  let result := acquireLock now agentId resource priority s in
  let lock := granted_lock now agentId resource requested in
  ((∀ held, locks s !! resource = Some held →
            BusinessLock.expiresAt held ≤ now) →
   fst result = Return (Some lock)
   ∧ locks (snd result) = <[resource := lock]> (locks s))
  ∧ (∀ held,
       locks s !! resource = Some held →
       BusinessLock.expiresAt held > now →
       BusinessLock.lockedBy held ≠ agentId →
       (requested > BusinessLock.priority held →
        fst result = Return (Some lock)
        ∧ locks (snd result) = <[resource := lock]> (locks s))
       ∧ (requested ≤ BusinessLock.priority held →
          fst result = Return None ∧ snd result = s)
       ∧ ((∃ granted, fst result = Return (Some granted))
          ↔ requested > BusinessLock.priority held)
       ∧ (requested = BusinessLock.priority held → fst result = Return None)).
Proof.
  intros requested result lock. subst requested result lock. split.
  - intros Hfree.
    destruct (acquireLock_granted now agentId resource priority s)
      as [lines ->]; [|done].
    intros held Hheld Hlive. specialize (Hfree held Hheld). lia.
  - intros held Hheld Hlive Hother.
    assert (default 0 priority > BusinessLock.priority held →
            fst (acquireLock now agentId resource priority s)
            = Return (Some (granted_lock now agentId resource
                              (default 0 priority)))
            ∧ locks (snd (acquireLock now agentId resource priority s))
              = <[resource := granted_lock now agentId resource
                                (default 0 priority)]> (locks s)) as Hgt.
    { intros Hgt.
      destruct (acquireLock_granted now agentId resource priority s)
        as [lines ->]; [|done].
      intros held'. rewrite Hheld. by intros [= <-]. }
    assert (default 0 priority ≤ BusinessLock.priority held →
            acquireLock now agentId resource priority s
            = (Return None, s)) as Hle.
    { intros Hle. by eapply acquireLock_denied. }
    split_and!.
    + done.
    + intros H. by rewrite Hle.
    + split.
      * intros [granted Hg].
        destruct (decide (default 0 priority > BusinessLock.priority held));
          [done|].
        rewrite Hle in Hg by lia. done.
      * intros H. destruct (Hgt H) as [-> _]. eauto.
    + intros H. rewrite Hle by lia. done.
Qed.

Lemma acquireLock_grant_policy_witness :
  fst (acquireLock 0 "agent-1" "customer:123" (Some 5) init)
  = Return (Some (granted_lock 0 "agent-1" "customer:123" 5))
  ∧ fst (acquireLock 1000 "agent-2" "customer:123" (Some 5)
           (snd (acquireLock 0 "agent-1" "customer:123" (Some 5) init)))
    = Return None
  ∧ fst (acquireLock 1000 "agent-2" "customer:123" (Some 10)
           (snd (acquireLock 0 "agent-1" "customer:123" (Some 5) init)))
    = Return (Some (granted_lock 1000 "agent-2" "customer:123" 10)).
Proof.
  split_and!.
  - apply (proj1 (acquireLock_grant_policy 0 "agent-1" "customer:123"
                    (Some 5) init)).
    intros held. vm_compute. discriminate.
  - refine (proj2 (proj2 (proj2
      (proj2 (acquireLock_grant_policy 1000 "agent-2" "customer:123" (Some 5)
                (snd (acquireLock 0 "agent-1" "customer:123" (Some 5) init)))
         (granted_lock 0 "agent-1" "customer:123" 5) _ _ _))) _).
    + vm_compute. reflexivity.
    + vm_compute. reflexivity.
    + vm_compute. discriminate.
    + vm_compute. reflexivity.
  - refine (proj1 (proj1
      (proj2 (acquireLock_grant_policy 1000 "agent-2" "customer:123" (Some 10)
                (snd (acquireLock 0 "agent-1" "customer:123" (Some 5) init)))
         (granted_lock 0 "agent-1" "customer:123" 5) _ _ _) _)).
    + vm_compute. reflexivity.
    + vm_compute. reflexivity.
    + vm_compute. discriminate.
    + vm_compute. reflexivity.
Defined.

Lemma addToQueue_eq now request s :
  addToQueue now request s =
    (Return tt,
     {| locks := locks s;
        queue := match list_find (entry_of (CoordinationRequest.agentId request)
                                           (CoordinationRequest.resource request))
                                 (queue s) with
                 | Some _ => queue s
                 | None =>
                     Array_sort by_priority
                       (queue s ++ [entry_of_request now request])
                 end;
        console := console s |}).
Proof.
  unfold addToQueue, bind, queue_get, queue_put, ret, Array_find.
  destruct (list_find _ _) as [[i e]|]; simpl; [|done].
  by rewrite state_eta.
Qed.

(** The branch of [requestCoordination] taken when a live lock of another
    caller is found. *)
Lemma requestCoordination_queued now request s lock :
  locks s !! CoordinationRequest.resource request = Some lock →
  BusinessLock.expiresAt lock > now →
  BusinessLock.lockedBy lock ≠ CoordinationRequest.agentId request →
  ∃ position,
    requestCoordination now request s =
      (Return {| CoordinationResult.granted := false;
                 CoordinationResult.lock := None;
                 CoordinationResult.queuePosition := Some (JsPromise position);
                 CoordinationResult.estimatedWaitMs :=
                   Some (js_times (JsPromise position) 5000) |},
       snd (addToQueue now request s))
    ∧ fst (getQueuePosition (CoordinationRequest.agentId request)
             (CoordinationRequest.resource request)
             (snd (addToQueue now request s))) = Return position.
Proof.
  intros Hlock Hlive Hother.
  unfold requestCoordination, bind at 1, locks_get. rewrite Hlock.
  destruct (decide _) as [_|?]; [|done].
  destruct (decide _) as [_|?]; [|done].
  unfold bind at 1. rewrite addToQueue_eq. simpl.
  unfold getQueuePosition, bind, queue_get, ret. simpl. eauto.
Qed.

Lemma requestCoordination_holder now request s lock :
  locks s !! CoordinationRequest.resource request = Some lock →
  BusinessLock.expiresAt lock > now →
  BusinessLock.lockedBy lock = CoordinationRequest.agentId request →
  requestCoordination now request s =
    (Return {| CoordinationResult.granted := true;
               CoordinationResult.lock := Some lock;
               CoordinationResult.queuePosition := None;
               CoordinationResult.estimatedWaitMs := None |}, s).
Proof.
  intros Hlock Hlive Hown.
  unfold requestCoordination, bind at 1, locks_get. rewrite Hlock.
  destruct (decide _) as [_|?]; [|done].
  by destruct (decide _) as [?|_].
Qed.

Lemma requestCoordination_free now request s :
  (∀ lock, locks s !! CoordinationRequest.resource request = Some lock →
           BusinessLock.expiresAt lock ≤ now) →
  let lock := granted_lock now (CoordinationRequest.agentId request)
                (CoordinationRequest.resource request)
                (CoordinationRequest.priority request) in
  requestCoordination now request s =
    (Return {| CoordinationResult.granted := true;
               CoordinationResult.lock := Some lock;
               CoordinationResult.queuePosition := None;
               CoordinationResult.estimatedWaitMs := None |},
     snd (acquireLock now (CoordinationRequest.agentId request)
            (CoordinationRequest.resource request)
            (Some (CoordinationRequest.priority request)) s)).
Proof.
  intros Hfree lock.
  destruct (acquireLock_granted now (CoordinationRequest.agentId request)
              (CoordinationRequest.resource request)
              (Some (CoordinationRequest.priority request)) s)
    as [lines Hacq].
  { intros held Hheld Hlive. specialize (Hfree held Hheld). lia. }
  unfold requestCoordination, bind at 1, locks_get.
  destruct (locks s !! _) as [held|] eqn:Hheld.
  - destruct (decide _) as [Hlive|_].
    { specialize (Hfree held eq_refl). lia. }
    unfold bind. by rewrite Hacq.
  - unfold bind. by rewrite Hacq.
Qed.

(** ** C5: release by a caller that is not the holder *)

(** C5. When the caller is not the recorded holder of the resource, the
    resource being unlocked included, [releaseLock] refuses and tells the
    caller so, and the whole state, the lock table with it, is left as it
    was: with an entry recorded for another caller the call throws
    [ConflictException]; with no entry it returns [{ released: false }]. *)
Theorem releaseLock_non_holder now agentId resource s :
  (∀ lock, locks s !! resource = Some lock →
           BusinessLock.lockedBy lock ≠ agentId) →
  refused (fst (releaseLock now agentId resource s))
  ∧ snd (releaseLock now agentId resource s) = s
  ∧ locks (snd (releaseLock now agentId resource s)) = locks s
  ∧ match locks s !! resource with
    | Some lock =>
        fst (releaseLock now agentId resource s)
        = Throw (ConflictException
                   ("Lock on " +:+ resource +:+ " is owned by "
                    +:+ BusinessLock.lockedBy lock +:+ ", not " +:+ agentId))
    | None => fst (releaseLock now agentId resource s) = Return false
    end.
Proof.
  intros Hnot. destruct (locks s !! resource) as [lock|] eqn:Hlock.
  - rewrite (releaseLock_conflict now agentId resource s lock)
      by (by try apply Hnot).
    split_and!; [constructor|done..].
  - rewrite releaseLock_unlocked by done.
    split_and!; [constructor|done..].
Qed.

Lemma releaseLock_non_holder_witness :
  releaseLock 5000 "a2" "db:accounts" held_by_a1
  = (Throw (ConflictException
              "Lock on db:accounts is owned by a1, not a2"), held_by_a1)
  ∧ releaseLock 5000 "a1" "db:cards" held_by_a1 = (Return false, held_by_a1).
Proof.
  split.
  - destruct (releaseLock_non_holder 5000 "a2" "db:accounts" held_by_a1)
      as (_ & Hstate & _ & Houtcome).
    + intros lock. vm_compute. intros [= <-]. discriminate.
    + rewrite (surjective_pairing (releaseLock _ _ _ _)), Hstate.
      by f_equal.
  - destruct (releaseLock_non_holder 5000 "a1" "db:cards" held_by_a1)
      as (_ & Hstate & _ & Houtcome).
    + intros lock. vm_compute. discriminate.
    + rewrite (surjective_pairing (releaseLock _ _ _ _)), Hstate.
      by f_equal.
Defined.

(** ** C10: the ownership check ignores lease expiry *)

(** C10. With an entry in the lock table whose [expiresAt] has passed,
    [getLockStatus] reports [null], yet [releaseLock] by another caller still
    throws [ConflictException] and changes nothing, and [releaseLock] by the
    recorded holder returns [{ released: true }], removes the holder's entry
    and promotes the first queued entry for the resource, if there is one:
    that entry's caller is recorded as holder and the entry leaves the
    queue. *)
Theorem releaseLock_ignores_expiry now agentId resource s lock :
  locks s !! resource = Some lock →
  BusinessLock.expiresAt lock ≤ now →
  fst (getLockStatus now resource s) = Return None
  ∧ (BusinessLock.lockedBy lock ≠ agentId →
     ∃ message,
       releaseLock now agentId resource s
       = (Throw (ConflictException message), s))
  ∧ (BusinessLock.lockedBy lock = agentId →
     fst (releaseLock now agentId resource s) = Return true
     ∧ let s' := snd (releaseLock now agentId resource s) in
       match Array_find (entry_for resource) (queue s) with
       | None => locks s' = delete resource (locks s) ∧ queue s' = queue s
       | Some next =>
           locks s' =
             <[resource := granted_lock now (QueueEntry.agentId next) resource
                             (QueueEntry.priority next)]>
               (delete resource (locks s))
           ∧ ∃ i, queue s !! i = Some next ∧ queue s' = delete i (queue s)
       end).
Proof.
  intros Hlock Hexpired. split_and!.
  - rewrite getLockStatus_eq, Hlock. simpl.
    destruct (decide _); [lia|done].
  - intros Hother. eexists. by apply releaseLock_conflict.
  - intros Hholder.
    rewrite (releaseLock_by_holder now agentId resource s lock) by done.
    split; [done|]. simpl. unfold Array_find.
    destruct (list_find _ _) as [[i next]|] eqn:Hfind; simpl; [|done].
    rewrite insert_delete_eq. split; [done|]. exists i. split; [|done].
    by apply list_find_Some in Hfind as [? _].
Qed.

Lemma releaseLock_ignores_expiry_witness :
  fst (getLockStatus 40000 "db:accounts"
         (run [(0, Acquire "a1" "db:accounts" (Some 5))]))
  = Return None
  ∧ (∃ message,
       releaseLock 40000 "a2" "db:accounts"
         (run [(0, Acquire "a1" "db:accounts" (Some 5))])
       = (Throw (ConflictException message),
          run [(0, Acquire "a1" "db:accounts" (Some 5))]))
  ∧ fst (releaseLock 40000 "a1" "db:accounts"
           (run [(0, Acquire "a1" "db:accounts" (Some 5))]))
    = Return true.
Proof.
  pose proof (releaseLock_ignores_expiry 40000 "a2" "db:accounts"
                (run [(0, Acquire "a1" "db:accounts" (Some 5))])
                (granted_lock 0 "a1" "db:accounts" 5)) as (H1 & H2 & _);
    [vm_compute; reflexivity | vm_compute; discriminate |].
  pose proof (releaseLock_ignores_expiry 40000 "a1" "db:accounts"
                (run [(0, Acquire "a1" "db:accounts" (Some 5))])
                (granted_lock 0 "a1" "db:accounts" 5)) as (_ & _ & H3);
    [vm_compute; reflexivity | vm_compute; discriminate |].
  split_and!; [exact H1 | apply H2; vm_compute; discriminate
              | apply H3; vm_compute; reflexivity].
Defined.

(** ** Sorting the queue *)

Lemma sort_insert_perm {A} (cmp : A → A → Z) x l :
  sort_insert cmp x l ≡ₚ x :: l.
Proof.
  induction l as [|y l IH]; simpl; [done|].
  destruct (decide _); [done|]. rewrite IH. apply Permutation_swap.
Qed.

Lemma Array_sort_perm {A} (cmp : A → A → Z) l : Array_sort cmp l ≡ₚ l.
Proof.
  induction l as [|x l IH]; simpl; [done|].
  by rewrite sort_insert_perm, IH.
Qed.

Lemma sort_insert_higher_first x q :
  StronglySorted higher_first q →
  StronglySorted higher_first (sort_insert by_priority x q).
Proof.
  induction 1 as [|y q Hq IH Hy]; simpl; [repeat constructor|].
  unfold by_priority at 1. destruct (decide _) as [Hle|Hgt].
  - constructor; [by constructor|]. constructor; [unfold higher_first; lia|].
    eapply Forall_impl; [exact Hy|]. unfold higher_first. intros; simpl in *. lia.
  - constructor; [done|]. rewrite sort_insert_perm.
    constructor; [unfold higher_first; lia|done].
Qed.

(** The model of [sort] is a stable sort by priority: its result is in
    [higher_first] order and entries of one priority keep their order. *)
Lemma Array_sort_higher_first q :
  StronglySorted higher_first (Array_sort by_priority q).
Proof.
  induction q as [|x q IH]; simpl; [constructor|].
  by apply sort_insert_higher_first.
Qed.

Lemma sort_insert_stable priority x l :
  filter (λ e, QueueEntry.priority e = priority) (sort_insert by_priority x l)
  = filter (λ e, QueueEntry.priority e = priority) (x :: l).
Proof.
  induction l as [|y l IH]; simpl; [done|].
  destruct (decide (by_priority x y ≤ 0)) as [Hle|Hgt]; [done|].
  unfold by_priority in Hgt.
  rewrite (filter_cons _ y), IH, !(filter_cons _ x), (filter_cons _ y).
  destruct (decide (QueueEntry.priority y = priority)),
    (decide (QueueEntry.priority x = priority)); try done. lia.
Qed.

Lemma Array_sort_stable priority q :
  filter (λ e, QueueEntry.priority e = priority) (Array_sort by_priority q)
  = filter (λ e, QueueEntry.priority e = priority) q.
Proof.
  induction q as [|x q IH]; simpl; [done|].
  fold (Array_sort by_priority q).
  by rewrite sort_insert_stable, !(filter_cons _ x), IH.
Qed.

Lemma sort_insert_first x q :
  Forall (higher_first x) q → sort_insert by_priority x q = x :: q.
Proof.
  destruct 1 as [|y q Hy _]; simpl; [done|].
  unfold higher_first, by_priority in *. destruct (decide _); [done|lia].
Qed.

Lemma settle_first x q :
  Forall (λ y, QueueEntry.priority y < QueueEntry.priority x) q →
  settle x q = x :: q.
Proof.
  destruct 1 as [|y q Hy _]; simpl; [done|]. destruct (decide _); [lia|done].
Qed.

Lemma settle_perm x q : settle x q ≡ₚ x :: q.
Proof.
  induction q as [|y q IH]; simpl; [done|].
  destruct (decide _); [|done]. rewrite IH. apply Permutation_swap.
Qed.

(** Sorting a queue in [higher_first] order after a push only moves the
    pushed entry, to where [settle] puts it. *)
Lemma Array_sort_push x q :
  StronglySorted higher_first q →
  Array_sort by_priority (q ++ [x]) = settle x q.
Proof.
  induction 1 as [|y q Hq IH Hy]; simpl; [done|].
  fold (Array_sort by_priority (q ++ [x])). rewrite IH.
  destruct (decide _) as [Hle|Hgt].
  - apply sort_insert_first. rewrite settle_perm. by constructor.
  - rewrite settle_first.
    + simpl. unfold by_priority at 1. destruct (decide _); [lia|].
      f_equal. by apply sort_insert_first.
    + eapply Forall_impl; [exact Hy|]. unfold higher_first. intros; simpl in *. lia.
Qed.

Lemma StronglySorted_sublist {A} (R : relation A) l1 l2 :
  l1 `sublist_of` l2 → StronglySorted R l2 → StronglySorted R l1.
Proof.
  induction 1 as [|x l1 l2 Hsub IH|x l1 l2 Hsub IH]; intros Hs.
  - constructor.
  - apply StronglySorted_inv in Hs as [Hs Hx]. constructor; [by apply IH|].
    rewrite Forall_forall in Hx |- *. intros y Hy. apply Hx.
    by eapply sublist_subseteq.
  - apply StronglySorted_inv in Hs as [Hs _]. by apply IH.
Qed.

Lemma served_before_higher_first a b : served_before a b → higher_first a b.
Proof. unfold served_before, higher_first. lia. Qed.

Lemma StronglySorted_served_higher q :
  StronglySorted served_before q → StronglySorted higher_first q.
Proof.
  induction 1 as [|x q Hq IH Hx]; constructor; [done|].
  eapply Forall_impl; [exact Hx|]. apply served_before_higher_first.
Qed.

(** [settle] keeps any order finer than [higher_first] in which the new entry
    may stand behind the entries of at least its priority. *)
Lemma settle_sorted (R : relation QueueEntry.t) x q :
  (∀ a b, R a b → higher_first a b) →
  (∀ y, QueueEntry.priority y < QueueEntry.priority x → R x y) →
  Forall (λ y, QueueEntry.priority x ≤ QueueEntry.priority y → R y x) q →
  StronglySorted R q → StronglySorted R (settle x q).
Proof.
  intros Hfiner Hfront Hback Hq.
  induction Hq as [|y q Hq IH Hy]; simpl.
  - repeat constructor.
  - apply Forall_cons in Hback as [Hyx Hback].
    destruct (decide _) as [Hle|Hgt].
    + constructor; [by apply IH|]. rewrite settle_perm. constructor; auto.
    + constructor; [by constructor|].
      constructor; [apply Hfront; lia|].
      eapply Forall_impl; [exact Hy|]. intros z Hz. apply Hfront.
      apply Hfiner in Hz. unfold higher_first in Hz. lia.
Qed.

(** ** What one call can do to the state *)

Lemma acquireLock_cases now agentId resource priority s :
  (∃ lines,
     acquireLock now agentId resource priority s =
       (Return (Some (granted_lock now agentId resource (default 0 priority))),
        {| locks := <[resource :=
                       granted_lock now agentId resource (default 0 priority)]>
                      (locks s);
           queue := match list_find (entry_of agentId resource) (queue s) with
                    | Some (i, _) => delete i (queue s)
                    | None => queue s
                    end;
           console := console s ++ lines |}))
  ∨ acquireLock now agentId resource priority s = (Return None, s).
Proof.
  destruct (locks s !! resource) as [lock|] eqn:Hlock.
  - destruct (decide (BusinessLock.expiresAt lock > now
                      ∧ BusinessLock.lockedBy lock ≠ agentId
                      ∧ default 0 priority ≤ BusinessLock.priority lock))
      as [(Hlive & Hother & Hle)|Hn].
    + right. by eapply acquireLock_denied.
    + left. apply acquireLock_granted. intros lock'. rewrite Hlock.
      intros [= <-] Hlive Hother.
      destruct (decide (default 0 priority > BusinessLock.priority lock));
        [done|]. destruct Hn. split_and!; [done|done|lia].
  - left. apply acquireLock_granted. intros lock'. by rewrite Hlock.
Qed.

Lemma step_effect now c s :
  (locks (step now c s) = locks s
   ∨ (∃ resource, locks (step now c s) = delete resource (locks s))
   ∨ (∃ resource agentId priority,
        locks (step now c s)
        = <[resource := granted_lock now agentId resource priority]> (locks s)))
  ∧ (queue (step now c s) = queue s
     ∨ (∃ i, queue (step now c s) = delete i (queue s))
     ∨ (∃ request,
          list_find (entry_of (CoordinationRequest.agentId request)
                              (CoordinationRequest.resource request))
                    (queue s) = None
          ∧ queue (step now c s)
            = Array_sort by_priority
                (queue s ++ [entry_of_request now request]))).
Proof.
  assert (∀ agentId resource priority,
    let s' := snd (acquireLock now agentId resource priority s) in
    (locks s' = locks s
     ∨ ∃ resource agentId priority,
         locks s' = <[resource := granted_lock now agentId resource priority]>
                      (locks s))
    ∧ (queue s' = queue s ∨ ∃ i, queue s' = delete i (queue s))) as Hacquire.
  { intros agentId resource priority.
    destruct (acquireLock_cases now agentId resource priority s)
      as [[lines ->]| ->]; simpl; [|by auto].
    split; [by eauto 6|]. destruct (list_find _ _) as [[i e]|]; eauto. }
  destruct c as [request|agentId resource priority|agentId resource
                |resource|agentId resource]; simpl.
  - destruct (locks s !! CoordinationRequest.resource request) as [lock|]
      eqn:Hlock.
    + destruct (decide (BusinessLock.expiresAt lock > now)) as [Hlive|Hdead].
      * destruct (decide (BusinessLock.lockedBy lock
                          = CoordinationRequest.agentId request))
          as [Hown|Hother].
        { rewrite (requestCoordination_holder now request s lock) by done.
          auto. }
        destruct (requestCoordination_queued now request s lock)
          as (position & -> & _); [done..|].
        rewrite addToQueue_eq. simpl. split; [by left|].
        destruct (list_find _ _) as [[i e]|] eqn:Hfind; [by left|].
        right; right. by exists request.
      * rewrite requestCoordination_free.
        2:{ intros lock'. rewrite Hlock. intros [= <-]. lia. }
        simpl. destruct (Hacquire (CoordinationRequest.agentId request)
          (CoordinationRequest.resource request)
          (Some (CoordinationRequest.priority request))) as [Hl Hq].
        split; [destruct Hl; auto | destruct Hq; auto].
    + rewrite requestCoordination_free.
      2:{ intros lock'. by rewrite Hlock. }
      simpl. destruct (Hacquire (CoordinationRequest.agentId request)
        (CoordinationRequest.resource request)
        (Some (CoordinationRequest.priority request))) as [Hl Hq].
      split; [destruct Hl; auto | destruct Hq; auto].
  - destruct (Hacquire agentId resource priority) as [Hl Hq].
    split; [destruct Hl; auto | destruct Hq; auto].
  - destruct (locks s !! resource) as [lock|] eqn:Hlock.
    + destruct (decide (BusinessLock.lockedBy lock = agentId)) as [Hown|Hother].
      * rewrite (releaseLock_by_holder now agentId resource s lock) by done.
        simpl. destruct (list_find _ _) as [[i next]|]; simpl.
        -- split; [by eauto 6 | by eauto].
        -- split; [by eauto | by auto].
      * rewrite (releaseLock_conflict now agentId resource s lock) by done.
        auto.
    + rewrite releaseLock_unlocked by done. auto.
  - rewrite getLockStatus_eq. auto.
  - auto.
Qed.

(** ** The invariants hold along every history *)

Lemma init_well_formed : well_formed init.
Proof. split; simpl; [done|constructor|constructor]. Qed.

Lemma list_find_None_key agentId resource (q : list QueueEntry.t) :
  list_find (entry_of agentId resource) q = None →
  (agentId, resource) ∉ entry_key <$> q.
Proof.
  intros Hfind%list_find_None Hin.
  apply list_elem_of_fmap in Hin as (e & Hkey & He).
  rewrite Forall_forall in Hfind. apply (Hfind e He).
  unfold entry_key in Hkey. injection Hkey as -> ->. by split.
Qed.

Lemma step_well_formed now c s : well_formed s → well_formed (step now c s).
Proof.
  intros [Hkeyed Hnodup Hsorted].
  destruct (step_effect now c s) as [Hlocks Hqueue]. split.
  - intros key lock.
    destruct Hlocks as [->|[[resource ->]|(resource & agentId & priority & ->)]].
    + apply Hkeyed.
    + intros [_ Hl]%lookup_delete_Some. by apply Hkeyed.
    + intros [[<- <-]|[_ Hl]]%lookup_insert_Some; [done|by apply Hkeyed].
  - destruct Hqueue as [->|[[i ->]|(request & Hfind & ->)]].
    + done.
    + apply (sublist_NoDup _ (entry_key <$> queue s)); [done|].
      apply fmap_sublist, sublist_delete.
    + rewrite Array_sort_perm, fmap_app. simpl.
      rewrite <- Permutation_cons_append. constructor; [|done].
      by apply list_find_None_key.
  - destruct Hqueue as [->|[[i ->]|(request & Hfind & ->)]].
    + done.
    + eapply StronglySorted_sublist; [apply sublist_delete|done].
    + rewrite Array_sort_push by done. apply settle_sorted; try done.
      * unfold higher_first. intros; lia.
      * apply Forall_forall. by intros.
Qed.

Lemma run_from_well_formed history s :
  well_formed s → well_formed (run_from s history).
Proof.
  revert s. induction history as [|[now c] history IH]; intros s Hs; [done|].
  apply IH. by apply step_well_formed.
Qed.

Lemma run_well_formed history : well_formed (run history).
Proof. apply run_from_well_formed, init_well_formed. Qed.

Lemma step_in_arrival_order clock now c s :
  clock ≤ now →
  in_arrival_order clock s → in_arrival_order now (step now c s).
Proof.
  intros Hclock [Hsorted Hpast].
  destruct (step_effect now c s) as [_ Hqueue].
  assert (Forall (λ e, QueueEntry.requestedAt e ≤ now) (queue s)) as Hpast'.
  { eapply Forall_impl; [exact Hpast|]. intros; simpl in *. lia. }
  destruct Hqueue as [Hq|[[i Hq]|(request & Hfind & Hq)]]; split; rewrite Hq;
    try done.
  - eapply StronglySorted_sublist; [apply sublist_delete|done].
  - by apply Forall_delete.
  - rewrite Array_sort_push by by apply StronglySorted_served_higher.
    apply settle_sorted; [apply served_before_higher_first| |..|done].
    + unfold served_before. intros; lia.
    + eapply Forall_impl; [exact Hpast'|].
      unfold served_before. simpl. intros; lia.
  - rewrite Array_sort_perm, <- Permutation_cons_append.
    constructor; [simpl; lia|done].
Qed.

Lemma run_from_in_arrival_order history clock s :
  in_arrival_order clock s →
  StronglySorted Z.le (clock :: (fst <$> history)) →
  ∃ clock', in_arrival_order clock' (run_from s history).
Proof.
  revert clock s.
  induction history as [|[now c] history IH]; intros clock s Hs Hchrono.
  - by exists clock.
  - simpl in *. apply StronglySorted_inv in Hchrono as [Hrest Hclock].
    apply Forall_cons in Hclock as [Hclock _].
    apply (IH now); [|done]. by apply (step_in_arrival_order clock).
Qed.

Lemma run_in_arrival_order history :
  chronological history →
  StronglySorted served_before (queue (run history)).
Proof.
  intros Hchrono. destruct history as [|[now c] history].
  - constructor.
  - destruct (run_from_in_arrival_order ((now, c) :: history) now init)
      as [clock' [Hsorted _]]; [| |done].
    + split; constructor.
    + simpl. apply Sorted_StronglySorted in Hchrono; [|intros ???; lia].
      constructor; [done|]. constructor; [lia|].
      simpl in Hchrono. by apply StronglySorted_inv in Hchrono as [_ ?].
Qed.

(** ** C1: one lock entry per resource *)

(** C1. After every history of calls, the lock table holds at most one entry
    for a resource, and two entries recorded for the same resource are one
    and the same entry, so no two distinct callers are both the recorded
    holder of a lock on it. *)
Theorem single_holder history resource :
  (length (lock_entries resource (run history)) ≤ 1)%nat
  ∧ ∀ key1 lock1 key2 lock2,
      locks (run history) !! key1 = Some lock1 →
      locks (run history) !! key2 = Some lock2 →
      BusinessLock.resource lock1 = resource →
      BusinessLock.resource lock2 = resource →
      key1 = key2 ∧ lock1 = lock2
      ∧ BusinessLock.lockedBy lock1 = BusinessLock.lockedBy lock2.
Proof.
  pose proof (wf_keyed _ (run_well_formed history)) as Hkeyed.
  assert (∀ key1 lock1 key2 lock2,
            locks (run history) !! key1 = Some lock1 →
            locks (run history) !! key2 = Some lock2 →
            BusinessLock.resource lock1 = resource →
            BusinessLock.resource lock2 = resource →
            key1 = key2 ∧ lock1 = lock2) as Hsame.
  { intros key1 lock1 key2 lock2 H1 H2 Hr1 Hr2.
    assert (key1 = key2) as <-.
    { by rewrite <- (Hkeyed _ _ H1), <- (Hkeyed _ _ H2), Hr1, Hr2. }
    split; [done|congruence]. }
  split.
  - unfold lock_entries.
    pose proof (NoDup_map_to_list (locks (run history))) as Hnodup.
    apply (NoDup_filter (λ entry, BusinessLock.resource entry.2 = resource))
      in Hnodup.
    destruct (filter _ _) as [|[key1 lock1] [|[key2 lock2] rest]] eqn:Hfilter;
      simpl; [lia|lia|exfalso].
    assert (∀ entry, entry ∈ (key1, lock1) :: (key2, lock2) :: rest →
              locks (run history) !! entry.1 = Some entry.2
              ∧ BusinessLock.resource entry.2 = resource) as Hin.
    { intros [key lock]. rewrite <- Hfilter. rewrite list_elem_of_filter.
      intros [Hr Hl]. by apply elem_of_map_to_list in Hl. }
    destruct (Hin (key1, lock1)) as [H1 Hr1]; [constructor|].
    destruct (Hin (key2, lock2)) as [H2 Hr2]; [do 2 constructor|].
    destruct (Hsame key1 lock1 key2 lock2) as [-> ->]; [done..|].
    apply NoDup_cons in Hnodup as [Hnotin _]. apply Hnotin. constructor.
  - intros key1 lock1 key2 lock2 H1 H2 Hr1 Hr2.
    destruct (Hsame key1 lock1 key2 lock2) as [-> ->]; done.
Qed.

Lemma single_holder_witness :
  (length (lock_entries "db:accounts" a3_promoted) ≤ 1)%nat
  ∧ ("db:accounts" = "db:accounts"
     ∧ granted_lock 2000 "a3" "db:accounts" 5
       = granted_lock 2000 "a3" "db:accounts" 5
     ∧ BusinessLock.lockedBy (granted_lock 2000 "a3" "db:accounts" 5)
       = BusinessLock.lockedBy (granted_lock 2000 "a3" "db:accounts" 5)).
Proof.
  destruct (single_holder
              [(0, Acquire "a1" "db:accounts" (Some 5));
               (1000, Coordinate (request "a3" "db:accounts" 5));
               (2000, Release "a1" "db:accounts")] "db:accounts")
    as [Hone Hsame].
  split; [exact Hone|].
  apply (Hsame "db:accounts" _ "db:accounts" _).
  - vm_compute. reflexivity.
  - vm_compute. reflexivity.
  - reflexivity.
  - reflexivity.
Defined.

(** ** C8: enqueueing the same caller again *)

(** C8, the claim as stated fails: [a2] is queued for ["db:accounts"] with
    priority 1 since instant 1000; when it asks again at instant 2000 with
    priority 9 the entry keeps priority 1 and [requestedAt] 1000. *)
Lemma requeue_keeps_priority_and_time :
  queue a2_queued
  = [ {| QueueEntry.agentId := "a2"; QueueEntry.resource := "db:accounts";
         QueueEntry.priority := 1; QueueEntry.requestedAt := 1000 |} ]
  ∧ queue (snd (addToQueue 2000 (request "a2" "db:accounts" 9) a2_queued))
    = [ {| QueueEntry.agentId := "a2"; QueueEntry.resource := "db:accounts";
           QueueEntry.priority := 1; QueueEntry.requestedAt := 1000 |} ]
  ∧ queue (step 2000 (Coordinate (request "a2" "db:accounts" 9)) a2_queued)
    = [ {| QueueEntry.agentId := "a2"; QueueEntry.resource := "db:accounts";
           QueueEntry.priority := 1; QueueEntry.requestedAt := 1000 |} ].
Proof. split_and!; vm_compute; reflexivity. Qed.

(** C8, as amended. Enqueueing never creates a duplicate: after every history
    the queue has at most one entry per (caller, resource) pair, and
    [addToQueue] keeps that from any state; enqueueing a caller that already
    has an entry for the resource changes nothing, so the entry keeps the
    priority and [requestedAt] of its first request. *)
Theorem addToQueue_idempotent :
  (∀ history, NoDup (entry_key <$> queue (run history)))
  ∧ (∀ now request s,
       NoDup (entry_key <$> queue s) →
       NoDup (entry_key <$> queue (snd (addToQueue now request s))))
  ∧ (∀ now request s e,
       e ∈ queue s →
       entry_of (CoordinationRequest.agentId request)
                (CoordinationRequest.resource request) e →
       addToQueue now request s = (Return tt, s)).
Proof.
  split_and!.
  - intros history. apply (wf_nodup _ (run_well_formed history)).
  - intros now request s Hnodup. rewrite addToQueue_eq. simpl.
    destruct (list_find _ _) as [[i e]|] eqn:Hfind; [done|].
    rewrite Array_sort_perm, fmap_app. simpl.
    rewrite <- Permutation_cons_append. constructor; [|done].
    by apply list_find_None_key.
  - intros now request s e He Hentry. rewrite addToQueue_eq.
    destruct (list_find_elem_of
                (entry_of (CoordinationRequest.agentId request)
                          (CoordinationRequest.resource request))
                (queue s) e He Hentry) as [[i e'] ->].
    by rewrite state_eta.
Qed.

Lemma addToQueue_idempotent_witness :
  addToQueue 2000 (request "a2" "db:accounts" 9) a2_queued
  = (Return tt, a2_queued).
Proof.
  apply (proj2 (proj2 addToQueue_idempotent) 2000
           (request "a2" "db:accounts" 9) a2_queued
           {| QueueEntry.agentId := "a2"; QueueEntry.resource := "db:accounts";
              QueueEntry.priority := 1; QueueEntry.requestedAt := 1000 |}).
  - vm_compute. constructor.
  - vm_compute. split; reflexivity.
Defined.

(** ** C9: queue position *)

Lemma length_filter_split {A} (P : A → Prop) `{∀ x, Decision (P x)}
    (l : list A) :
  length l = (length (filter P l) + length (filter (λ x, ¬ P x) l))%nat.
Proof.
  induction l as [|x l IH]; [done|].
  rewrite !filter_cons. destruct (decide (P x)), (decide (¬ P x)); simpl;
    try done; lia.
Qed.

(** C9, the claim as stated fails: [a3] is the only caller queued for
    ["db:accounts"], so its rank among the entries for that resource is 1,
    but [a2]'s entry for ["db:cards"] stands before it in the queue and
    [getQueuePosition] returns 2. *)
Lemma getQueuePosition_counts_other_resources :
  filter (entry_for "db:accounts") (queue two_resources)
  = [ {| QueueEntry.agentId := "a3"; QueueEntry.resource := "db:accounts";
         QueueEntry.priority := 5; QueueEntry.requestedAt := 2000 |} ]
  ∧ rank_among_resource "a3" "db:accounts" (queue two_resources) = 1
  ∧ fst (getQueuePosition "a3" "db:accounts" two_resources) = Return 2.
Proof. split_and!; vm_compute; reflexivity. Qed.

(** C9, as amended. [getQueuePosition] changes nothing; it returns [0] when
    the caller has no entry for the resource, and otherwise the 1-indexed
    position of the caller's entry in the whole queue: one more than the
    number of entries before it, those for the same resource and those for
    other resources alike. *)
Theorem getQueuePosition_whole_queue agentId resource s :
  snd (getQueuePosition agentId resource s) = s
  ∧ (Forall (λ e, ¬ entry_of agentId resource e) (queue s) →
     fst (getQueuePosition agentId resource s) = Return 0)
  ∧ (∀ before e after,
       queue s = before ++ e :: after →
       entry_of agentId resource e →
       Forall (λ e', ¬ entry_of agentId resource e') before →
       fst (getQueuePosition agentId resource s)
       = Return (Z.of_nat (length (filter (entry_for resource) before))
                 + Z.of_nat
                     (length (filter (λ e', ¬ entry_for resource e') before))
                 + 1)).
Proof.
  unfold getQueuePosition, bind, queue_get, ret, Array_findIndex. simpl.
  split_and!; [done| |].
  - intros Hnone.
    rewrite (proj2 (list_find_None (entry_of agentId resource) (queue s)))
      by done.
    by destruct (decide _).
  - intros before e after Hq He Hbefore.
    assert (list_find (entry_of agentId resource) (queue s)
            = Some (length before, e)) as ->.
    { apply list_find_Some. rewrite Hq. split_and!.
      - by rewrite list_lookup_middle.
      - done.
      - intros j y Hj Hlt. rewrite lookup_app_l in Hj by done.
        rewrite Forall_forall in Hbefore. apply Hbefore.
        by eapply list_elem_of_lookup_2. }
    destruct (decide _) as [Habs|_]; [lia|].
    rewrite (length_filter_split (entry_for resource) before) at 1.
    f_equal. lia.
Qed.

Lemma getQueuePosition_whole_queue_witness :
  fst (getQueuePosition "a3" "db:accounts" two_resources) = Return (0 + 1 + 1).
Proof.
  apply (proj2 (proj2
           (getQueuePosition_whole_queue "a3" "db:accounts" two_resources))
           [ {| QueueEntry.agentId := "a2"; QueueEntry.resource := "db:cards";
                QueueEntry.priority := 10; QueueEntry.requestedAt := 1000 |} ]
           {| QueueEntry.agentId := "a3"; QueueEntry.resource := "db:accounts";
              QueueEntry.priority := 5; QueueEntry.requestedAt := 2000 |}
           []).
  - vm_compute. reflexivity.
  - vm_compute. split; reflexivity.
  - constructor; [|constructor]. vm_compute. intros [H _]. discriminate H.
Defined.

(** ** C3: coordination behind a live holder *)

(** C3, the claim as stated fails: [a1] holds ["db:accounts"] at priority 5
    with a live lease; [a2] asks for coordination at priority 10 and is not
    granted: [a1] stays the recorded holder and [a2] is put in the queue. *)
Lemma requestCoordination_does_not_preempt :
  fst (getLockStatus 1000 "db:accounts" held_by_a1)
  = Return (Some (granted_lock 0 "a1" "db:accounts" 5))
  ∧ requestCoordination 1000 (request "a2" "db:accounts" 10) held_by_a1
    = (Return {| CoordinationResult.granted := false;
                 CoordinationResult.lock := None;
                 CoordinationResult.queuePosition := Some (JsPromise 1);
                 CoordinationResult.estimatedWaitMs := Some JsNaN |},
       {| locks := locks held_by_a1;
          queue := [entry_of_request 1000 (request "a2" "db:accounts" 10)];
          console := [] |}).
Proof. split; vm_compute; reflexivity. Qed.

(** C3, as amended. A coordination request for a resource held by a live lock
    of another caller is never granted, whatever the two priorities: the
    result has [granted: false] and no lock, the lock table is unchanged and
    the caller has an entry in the queue.  With a strictly higher priority it
    is [acquireLock], called in that same state, that is granted the lock. *)
Theorem requestCoordination_queues_behind_holder now request s lock :
  locks s !! CoordinationRequest.resource request = Some lock →
  BusinessLock.expiresAt lock > now →
  BusinessLock.lockedBy lock ≠ CoordinationRequest.agentId request →
  (∃ result,
     fst (requestCoordination now request s) = Return result
     ∧ CoordinationResult.granted result = false
     ∧ CoordinationResult.lock result = None)
  ∧ locks (snd (requestCoordination now request s)) = locks s
  ∧ (∃ e, e ∈ queue (snd (requestCoordination now request s))
          ∧ entry_of (CoordinationRequest.agentId request)
                     (CoordinationRequest.resource request) e)
  ∧ (CoordinationRequest.priority request > BusinessLock.priority lock →
     fst (acquireLock now (CoordinationRequest.agentId request)
            (CoordinationRequest.resource request)
            (Some (CoordinationRequest.priority request)) s)
     = Return (Some (granted_lock now (CoordinationRequest.agentId request)
                       (CoordinationRequest.resource request)
                       (CoordinationRequest.priority request)))).
Proof.
  intros Hlock Hlive Hother.
  destruct (requestCoordination_queued now request s lock)
    as (position & -> & _); [done..|].
  rewrite addToQueue_eq. simpl. split_and!; [by eauto|done| |].
  - destruct (list_find _ _) as [[i e]|] eqn:Hfind.
    + apply list_find_Some in Hfind as (Hi & He & _).
      exists e. split; [by eapply list_elem_of_lookup_2|done].
    + exists (entry_of_request now request). split; [|by split].
      rewrite Array_sort_perm. apply elem_of_app. right. constructor.
  - intros Hhigher.
    destruct (acquireLock_granted now (CoordinationRequest.agentId request)
                (CoordinationRequest.resource request)
                (Some (CoordinationRequest.priority request)) s)
      as [lines ->]; [|done].
    intros held. rewrite Hlock. by intros [= <-].
Qed.

Lemma requestCoordination_queues_behind_holder_witness :
  (∃ result,
     fst (requestCoordination 1000 (request "a2" "db:accounts" 10) held_by_a1)
     = Return result
     ∧ CoordinationResult.granted result = false
     ∧ CoordinationResult.lock result = None)
  ∧ locks (snd (requestCoordination 1000 (request "a2" "db:accounts" 10)
                  held_by_a1))
    = locks held_by_a1
  ∧ (∃ e, e ∈ queue (snd (requestCoordination 1000
                            (request "a2" "db:accounts" 10) held_by_a1))
          ∧ entry_of "a2" "db:accounts" e)
  ∧ fst (acquireLock 1000 "a2" "db:accounts" (Some 10) held_by_a1)
    = Return (Some (granted_lock 1000 "a2" "db:accounts" 10)).
Proof.
  destruct (requestCoordination_queues_behind_holder 1000
              (request "a2" "db:accounts" 10) held_by_a1
              (granted_lock 0 "a1" "db:accounts" 5))
    as (Hresult & Hlocks & Hqueued & Hacquire).
  - vm_compute. reflexivity.
  - vm_compute. reflexivity.
  - vm_compute. discriminate.
  - split_and!; [exact Hresult|exact Hlocks|exact Hqueued|].
    apply Hacquire. vm_compute. reflexivity.
Defined.

(** ** C7: the wait estimate *)

Lemma sort_insert_fmap {A} (cmp : A → A → Z) (f : A → A) x l :
  (∀ a b, cmp (f a) (f b) = cmp a b) →
  sort_insert cmp (f x) (f <$> l) = f <$> sort_insert cmp x l.
Proof.
  intros Hcmp. induction l as [|y l IH]; csimpl; [done|].
  rewrite Hcmp. destruct (decide _); csimpl; [done|]. by rewrite IH.
Qed.

Lemma Array_sort_fmap {A} (cmp : A → A → Z) (f : A → A) l :
  (∀ a b, cmp (f a) (f b) = cmp a b) →
  Array_sort cmp (f <$> l) = f <$> Array_sort cmp l.
Proof.
  intros Hcmp. induction l as [|x l IH]; csimpl; [done|].
  fold (Array_sort cmp (f <$> l)). rewrite IH. by apply sort_insert_fmap.
Qed.

(** The position a request is queued at does not depend on the instant. *)
Lemma queued_position_timeless now now' request q :
  list_find (entry_of (CoordinationRequest.agentId request)
                      (CoordinationRequest.resource request)) q = None →
  Array_findIndex (entry_of (CoordinationRequest.agentId request)
                            (CoordinationRequest.resource request))
    (Array_sort by_priority (q ++ [entry_of_request now request]))
  = Array_findIndex (entry_of (CoordinationRequest.agentId request)
                              (CoordinationRequest.resource request))
      (Array_sort by_priority (q ++ [entry_of_request now' request])).
Proof.
  set (agentId := CoordinationRequest.agentId request).
  set (resource := CoordinationRequest.resource request).
  intros Hnone. apply list_find_None in Hnone.
  set (f := λ e : QueueEntry.t,
         if decide (entry_of agentId resource e)
         then {| QueueEntry.agentId := QueueEntry.agentId e;
                 QueueEntry.resource := QueueEntry.resource e;
                 QueueEntry.priority := QueueEntry.priority e;
                 QueueEntry.requestedAt := now' |}
         else e).
  assert (f <$> q = q) as Hq.
  { clear -Hnone. induction Hnone as [|e q He Hnone IH]; csimpl; [done|].
    rewrite IH. unfold f. by destruct (decide _). }
  assert (f (entry_of_request now request) = entry_of_request now' request)
    as Hx.
  { unfold f. destruct (decide _) as [_|Hn]; [done|]. by destruct Hn. }
  assert (q ++ [entry_of_request now' request]
          = f <$> (q ++ [entry_of_request now request])) as ->.
  { by rewrite fmap_app, Hq; csimpl; rewrite Hx. }
  rewrite Array_sort_fmap.
  2:{ intros a b. unfold f, by_priority.
      by destruct (decide _), (decide _). }
  unfold Array_findIndex. rewrite list_find_fmap.
  rewrite (list_find_ext (entry_of agentId resource ∘ f)
             (entry_of agentId resource)).
  2:{ intros e. unfold f. simpl. by destruct (decide _). }
  by destruct (list_find _ _) as [[i e]|].
Qed.

(** C7, the claim as stated fails: [a2] is queued behind the holder [a1]
    with no entry ahead of it in the queue, so the sum of the remaining TTLs
    of the entries ahead is the empty sum, whatever the TTLs.  The returned
    estimate is the product of the position by 5000; whether the position is
    taken as the promise the call holds or as the number 1 it resolves to,
    the product is neither that sum nor the remaining TTL of the holder's
    lock. *)
Lemma estimatedWaitMs_is_not_a_ttl_sum :
  fst a2_behind_a1
  = Return {| CoordinationResult.granted := false;
              CoordinationResult.lock := None;
              CoordinationResult.queuePosition := Some (JsPromise 1);
              CoordinationResult.estimatedWaitMs :=
                Some (js_times (JsPromise 1) 5000) |}
  ∧ entries_ahead "a2" "db:accounts" (queue (snd a2_behind_a1)) = []
  ∧ (∀ remaining_ttl,
       let sum := sum_remaining_ttls remaining_ttl
                    (entries_ahead "a2" "db:accounts"
                       (queue (snd a2_behind_a1))) in
       js_times (JsPromise 1) 5000 ≠ JsNumber sum
       ∧ js_times (JsNumber 1) 5000 ≠ JsNumber sum)
  ∧ js_times (JsPromise 1) 5000
    ≠ JsNumber (BusinessLock.expiresAt (granted_lock 0 "a1" "db:accounts" 5)
                - 1000)
  ∧ js_times (JsNumber 1) 5000
    ≠ JsNumber (BusinessLock.expiresAt (granted_lock 0 "a1" "db:accounts" 5)
                - 1000).
Proof.
  split_and!; [vm_compute; reflexivity|vm_compute; reflexivity| |done|done].
  intros remaining_ttl. by split.
Qed.

(** C7, as amended. For every coordination request that is queued, the
    returned [estimatedWaitMs] is the returned [queuePosition] multiplied by
    the constant 5000, a fixed amount per position; it is settled by the
    queue and the request alone, so neither the instant of the call nor the
    leases in the lock table, and with them the remaining TTLs, enter it. *)
Theorem estimatedWaitMs_fixed_per_position now request s lock :
  locks s !! CoordinationRequest.resource request = Some lock →
  BusinessLock.expiresAt lock > now →
  BusinessLock.lockedBy lock ≠ CoordinationRequest.agentId request →
  ∃ result position,
    fst (requestCoordination now request s) = Return result
    ∧ CoordinationResult.granted result = false
    ∧ CoordinationResult.queuePosition result = Some position
    ∧ CoordinationResult.estimatedWaitMs result = Some (js_times position 5000)
    ∧ ∀ now' s' lock',
        queue s' = queue s →
        locks s' !! CoordinationRequest.resource request = Some lock' →
        BusinessLock.expiresAt lock' > now' →
        BusinessLock.lockedBy lock' ≠ CoordinationRequest.agentId request →
        ∃ result',
          fst (requestCoordination now' request s') = Return result'
          ∧ CoordinationResult.queuePosition result'
            = CoordinationResult.queuePosition result
          ∧ CoordinationResult.estimatedWaitMs result'
            = CoordinationResult.estimatedWaitMs result.
Proof.
  intros Hlock Hlive Hother.
  destruct (requestCoordination_queued now request s lock)
    as (position & -> & Hposition); [done..|].
  eexists _, _. split_and!; [done..|].
  intros now' s' lock' Hqueue Hlock' Hlive' Hother'.
  destruct (requestCoordination_queued now' request s' lock')
    as (position' & -> & Hposition'); [done..|].
  eexists. split; [done|]. simpl.
  assert (position' = position) as ->; [|done].
  revert Hposition Hposition'. rewrite !addToQueue_eq.
  unfold getQueuePosition, bind, queue_get, ret. simpl. rewrite Hqueue.
  destruct (list_find _ (queue s)) as [[i e]|] eqn:Hfind.
  - congruence.
  - rewrite (queued_position_timeless now now' request (queue s) Hfind).
    congruence.
Qed.

Lemma estimatedWaitMs_fixed_per_position_witness :
  ∃ result position,
    fst (requestCoordination 1000 (request "a2" "db:accounts" 10) held_by_a1)
    = Return result
    ∧ CoordinationResult.granted result = false
    ∧ CoordinationResult.queuePosition result = Some position
    ∧ CoordinationResult.estimatedWaitMs result = Some (js_times position 5000).
Proof.
  destruct (estimatedWaitMs_fixed_per_position 1000
              (request "a2" "db:accounts" 10) held_by_a1
              (granted_lock 0 "a1" "db:accounts" 5))
    as (result & position & H1 & H2 & H3 & H4 & _).
  - vm_compute. reflexivity.
  - vm_compute. reflexivity.
  - vm_compute. discriminate.
  - exists result, position. auto.
Defined.

(** ** C4: promotion on release *)

Lemma filter_list_find_None {A} (P : A → Prop) `{∀ x, Decision (P x)}
    (q : list A) :
  list_find P q = None ↔ filter P q = [].
Proof.
  rewrite list_find_None. induction q as [|y q IH]; [done|].
  rewrite Forall_cons, filter_cons. destruct (decide (P y)) as [Hy|Hy].
  - split; [by intros [? _] | done].
  - rewrite <- IH. split; [by intros [_ ?] | by intros].
Qed.

(** The first entry [find] meets is the head of the filtered queue, and
    splicing it out leaves the tail. *)
Lemma filter_list_find_Some {A} (P : A → Prop) `{∀ x, Decision (P x)}
    (q : list A) i e :
  list_find P q = Some (i, e) → filter P q = e :: filter P (delete i q).
Proof.
  revert i. induction q as [|y q IH]; intros i; [done|]. simpl.
  rewrite filter_cons. destruct (decide (P y)) as [Hy|Hy].
  - by intros [= <- <-].
  - destruct (list_find P q) as [[i' e']|]; [|done].
    intros [= <- <-]. simpl. rewrite filter_cons_False by done. by apply IH.
Qed.

Lemma filter_head_list_find {A} (P : A → Prop) `{∀ x, Decision (P x)}
    (q : list A) e rest :
  filter P q = e :: rest →
  ∃ i, list_find P q = Some (i, e) ∧ filter P (delete i q) = rest.
Proof.
  intros Hfilter. destruct (list_find P q) as [[i e']|] eqn:Hfind.
  - apply filter_list_find_Some in Hfind as Hhead.
    rewrite Hfilter in Hhead. injection Hhead as <- ->. by exists i.
  - apply filter_list_find_None in Hfind. congruence.
Qed.

(** Release by the holder, in terms of the entries queued for the
    resource. *)
Lemma release_promotes_head now holder resource s lock e rest :
  locks s !! resource = Some lock →
  BusinessLock.lockedBy lock = holder →
  filter (entry_for resource) (queue s) = e :: rest →
  releaseLock now holder resource s =
    (Return true, step now (Release holder resource) s)
  ∧ locks (step now (Release holder resource) s)
    = <[resource := granted_lock now (QueueEntry.agentId e) resource
                      (QueueEntry.priority e)]> (locks s)
  ∧ filter (entry_for resource) (queue (step now (Release holder resource) s))
    = rest
  ∧ ∃ i, queue s !! i = Some e
         ∧ queue (step now (Release holder resource) s) = delete i (queue s).
Proof.
  intros Hlock Hholder Hfilter. simpl.
  rewrite (releaseLock_by_holder now holder resource s lock) by done.
  destruct (filter_head_list_find _ _ _ _ Hfilter) as (i & Hfind & Hrest).
  rewrite Hfind. simpl. split_and!; [done..|]. exists i. split; [|done].
  by apply list_find_Some in Hfind as [? _].
Qed.

Lemma delete_not_elem_of {A B} (f : A → B) (q : list A) i e :
  NoDup (f <$> q) → q !! i = Some e → e ∉ delete i q.
Proof.
  intros Hnodup Hi Hin.
  rewrite <- (take_drop_middle q i e Hi), fmap_app, fmap_cons in Hnodup.
  apply NoDup_app in Hnodup as (_ & Hbefore & Hafter).
  apply NoDup_cons in Hafter as [Hafter _].
  rewrite delete_take_drop in Hin. apply elem_of_app in Hin as [Hin|Hin].
  - apply (Hbefore (f e)); [by apply list_elem_of_fmap_2|constructor].
  - apply Hafter. by apply list_elem_of_fmap_2.
Qed.

Lemma filter_settle resource x q :
  StronglySorted higher_first q →
  entry_for resource x →
  filter (entry_for resource) (settle x q)
  = settle x (filter (entry_for resource) q).
Proof.
  intros Hq Hx. induction Hq as [|y q Hq IH Hy]; simpl.
  - by rewrite filter_cons_True.
  - destruct (decide (QueueEntry.priority x ≤ QueueEntry.priority y))
      as [Hle|Hgt].
    + rewrite !(filter_cons _ y). destruct (decide (entry_for resource y)).
      * simpl. destruct (decide _); [|done]. by rewrite IH.
      * done.
    + rewrite filter_cons_True by done. symmetry. apply settle_first.
      apply Forall_forall. intros z [Hz Hin]%list_elem_of_filter.
      apply elem_of_cons in Hin as [->|Hin]; [lia|].
      rewrite Forall_forall in Hy. specialize (Hy z Hin).
      unfold higher_first in Hy. lia.
Qed.

(** A request behind a live holder, from a caller with no entry for the
    resource yet, is settled into the queue; the lock table stays. *)
Lemma coordinate_enqueues now request s lock :
  StronglySorted higher_first (queue s) →
  locks s !! CoordinationRequest.resource request = Some lock →
  BusinessLock.expiresAt lock > now →
  BusinessLock.lockedBy lock ≠ CoordinationRequest.agentId request →
  Forall (λ e, QueueEntry.agentId e ≠ CoordinationRequest.agentId request)
         (filter (entry_for (CoordinationRequest.resource request)) (queue s)) →
  locks (step now (Coordinate request) s) = locks s
  ∧ queue (step now (Coordinate request) s)
    = settle (entry_of_request now request) (queue s)
  ∧ filter (entry_for (CoordinationRequest.resource request))
           (queue (step now (Coordinate request) s))
    = settle (entry_of_request now request)
        (filter (entry_for (CoordinationRequest.resource request)) (queue s)).
Proof.
  intros Hsorted Hlock Hlive Hother Hfresh. simpl.
  destruct (requestCoordination_queued now request s lock)
    as (position & -> & _); [done..|].
  rewrite addToQueue_eq. simpl.
  rewrite (proj2 (list_find_None _ (queue s))).
  - rewrite Array_sort_push by done. split_and!; [done..|].
    by apply filter_settle.
  - apply Forall_forall. intros e He [Hagent Hresource].
    rewrite Forall_forall in Hfresh. apply (Hfresh e); [|done].
    by apply list_elem_of_filter.
Qed.

(** C4. After any history, a release by the recorded holder returns
    [{ released: true }] and, in that one call, removes the holder's entry and
    promotes from the queue.  With nobody queued for the resource the entry is
    just deleted.  Otherwise the first entry for the resource is spliced out of
    the queue and its caller recorded as holder in place of the old one, the
    other entries for the resource keep their order, and the promoted entry is
    the best one: no other entry for the resource has a higher priority, and,
    the clock never having gone back, one of the same priority has a
    [requestedAt] that is not earlier.  In particular, when [A], [B] and [C]
    queue up in that order at one priority behind the holder, the releases by
    the holder, by [A] and by [B] make [A], then [B], then [C] the holder. *)
Theorem releaseLock_promotes_next history now holder resource lock :
  locks (run history) !! resource = Some lock →
  BusinessLock.lockedBy lock = holder →
  let s := run history in
  let s' := snd (releaseLock now holder resource s) in
  fst (releaseLock now holder resource s) = Return true
  ∧ (filter (entry_for resource) (queue s) = [] →
     locks s' = delete resource (locks s) ∧ queue s' = queue s)
  ∧ (∀ next rest,
       filter (entry_for resource) (queue s) = next :: rest →
       locks s'
       = <[resource := granted_lock now (QueueEntry.agentId next) resource
                         (QueueEntry.priority next)]>
           (delete resource (locks s))
       ∧ (∃ i, queue s !! i = Some next ∧ queue s' = delete i (queue s))
       ∧ (next ∉ queue s')
       ∧ filter (entry_for resource) (queue s') = rest
       ∧ Forall (higher_first next) rest
       ∧ (chronological history → Forall (served_before next) rest))
  ∧ (∀ requestA requestB requestC tA tB tC t1 t2 t3,
       let a := CoordinationRequest.agentId requestA in
       let b := CoordinationRequest.agentId requestB in
       let c := CoordinationRequest.agentId requestC in
       CoordinationRequest.resource requestA = resource →
       CoordinationRequest.resource requestB = resource →
       CoordinationRequest.resource requestC = resource →
       CoordinationRequest.priority requestA
       = CoordinationRequest.priority requestB →
       CoordinationRequest.priority requestB
       = CoordinationRequest.priority requestC →
       a ≠ holder → b ≠ holder → c ≠ holder → a ≠ b → a ≠ c → b ≠ c →
       filter (entry_for resource) (queue s) = [] →
       tA < BusinessLock.expiresAt lock →
       tB < BusinessLock.expiresAt lock →
       tC < BusinessLock.expiresAt lock →
       let sC := run_from s [(tA, Coordinate requestA);
                             (tB, Coordinate requestB);
                             (tC, Coordinate requestC)] in
       let s1 := step t1 (Release holder resource) sC in
       let s2 := step t2 (Release a resource) s1 in
       let s3 := step t3 (Release b resource) s2 in
       filter (entry_for resource) (queue sC)
       = [entry_of_request tA requestA; entry_of_request tB requestB;
          entry_of_request tC requestC]
       ∧ BusinessLock.lockedBy <$> locks s1 !! resource = Some a
       ∧ BusinessLock.lockedBy <$> locks s2 !! resource = Some b
       ∧ BusinessLock.lockedBy <$> locks s3 !! resource = Some c
       ∧ filter (entry_for resource) (queue s3) = []).
Proof.
  intros Hlock Hholder s s'. subst s s'.
  pose proof (run_well_formed history) as Hwf.
  pose proof (run_in_arrival_order history) as Harrival.
  set (s := run history) in *.
  rewrite (releaseLock_by_holder now holder resource s lock) by done.
  split_and!.
  - done.
  - simpl. intros Hnone%filter_list_find_None. by rewrite Hnone.
  - intros next rest Hfilter.
    destruct (filter_head_list_find _ _ _ _ Hfilter) as (i & Hfind & Hrest).
    simpl. rewrite Hfind. simpl. pose proof Hfind as [Hi _]%list_find_Some.
    split_and!.
    + by rewrite insert_delete_eq.
    + by exists i.
    + eapply delete_not_elem_of; [apply (wf_nodup _ Hwf)|done].
    + done.
    + assert (StronglySorted higher_first (next :: rest)) as Hsorted.
      { rewrite <- Hfilter.
        eapply StronglySorted_sublist;
          [apply sublist_filter|apply (wf_sorted _ Hwf)]. }
      by apply StronglySorted_inv in Hsorted as [_ ?].
    + intros Hchrono.
      assert (StronglySorted served_before (next :: rest)) as Hsorted.
      { rewrite <- Hfilter.
        eapply StronglySorted_sublist; [apply sublist_filter|by apply Harrival]. }
      by apply StronglySorted_inv in Hsorted as [_ ?].
  - intros requestA requestB requestC tA tB tC t1 t2 t3 a b c
      HrA HrB HrC HpAB HpBC Hah Hbh Hch Hab Hac Hbc Hnone HtA HtB HtC.
    unfold run_from. cbn [foldl fst snd]. clear Harrival.
    subst a b c.
    set (sA := step tA (Coordinate requestA) s).
    set (sB := step tB (Coordinate requestB) sA).
    set (sC := step tC (Coordinate requestC) sB).
    (* [A], [B] and [C] queue up *)
    destruct (coordinate_enqueues tA requestA s lock)
      as (HlA & _ & HfA);
      [apply (wf_sorted _ Hwf) | by rewrite HrA | lia | congruence
      | by rewrite HrA, Hnone |].
    fold sA in HlA, HfA. rewrite HrA, Hnone in HfA. simpl in HfA.
    assert (well_formed sA) as HwfA by by apply step_well_formed.
    destruct (coordinate_enqueues tB requestB sA lock)
      as (HlB & _ & HfB);
      [apply (wf_sorted _ HwfA) | by rewrite HrB, HlA | lia | congruence
      | rewrite HrB, HfA; by repeat constructor |].
    fold sB in HlB, HfB. rewrite HrB, HfA in HfB. simpl in HfB.
    destruct (decide _) as [_|Hn] in HfB; [|simpl in Hn; lia].
    assert (well_formed sB) as HwfB by by apply step_well_formed.
    destruct (coordinate_enqueues tC requestC sB lock)
      as (HlC & _ & HfC);
      [apply (wf_sorted _ HwfB) | by rewrite HrC, HlB, HlA | lia | congruence
      | rewrite HrC, HfB; by repeat constructor |].
    fold sC in HlC, HfC. rewrite HrC, HfB in HfC. simpl in HfC.
    destruct (decide _) as [_|Hn] in HfC; [|simpl in Hn; lia].
    destruct (decide _) as [_|Hn] in HfC; [|simpl in Hn; lia].
    (* three releases *)
    assert (locks sC !! resource = Some lock) as HlockC
      by by rewrite HlC, HlB, HlA.
    destruct (release_promotes_head t1 holder resource sC lock _ _
                HlockC Hholder HfC) as (_ & Hl1 & Hf1 & _).
    set (s1 := step t1 (Release holder resource) sC) in *.
    apply (f_equal (λ m : gmap string BusinessLock.t, m !! resource)) in Hl1.
    cbv beta in Hl1. rewrite lookup_insert_eq in Hl1.
    destruct (release_promotes_head t2 (CoordinationRequest.agentId requestA)
                resource s1 _ _ _ Hl1 eq_refl Hf1) as (_ & Hl2 & Hf2 & _).
    set (s2 := step t2 (Release (CoordinationRequest.agentId requestA)
                          resource) s1) in *.
    apply (f_equal (λ m : gmap string BusinessLock.t, m !! resource)) in Hl2.
    cbv beta in Hl2. rewrite lookup_insert_eq in Hl2.
    destruct (release_promotes_head t3 (CoordinationRequest.agentId requestB)
                resource s2 _ _ _ Hl2 eq_refl Hf2) as (_ & Hl3 & Hf3 & _).
    set (s3 := step t3 (Release (CoordinationRequest.agentId requestB)
                          resource) s2) in *.
    apply (f_equal (λ m : gmap string BusinessLock.t, m !! resource)) in Hl3.
    cbv beta in Hl3. rewrite lookup_insert_eq in Hl3.
    split_and!; [done| | | |done].
    + by rewrite Hl1.
    + by rewrite Hl2.
    + by rewrite Hl3.
Qed.

Lemma releaseLock_promotes_next_witness :
  fst (releaseLock 4000 "a1" "db:accounts" held_by_a1) = Return true
  ∧ locks (snd (releaseLock 4000 "a1" "db:accounts" held_by_a1))
    = delete "db:accounts" (locks held_by_a1)
  ∧ BusinessLock.lockedBy
      <$> locks (run_from held_by_a1
                   [(1000, Coordinate (request "A" "db:accounts" 5));
                    (2000, Coordinate (request "B" "db:accounts" 5));
                    (3000, Coordinate (request "C" "db:accounts" 5));
                    (4000, Release "a1" "db:accounts")]) !! "db:accounts"
    = Some "A"
  ∧ BusinessLock.lockedBy
      <$> locks (run_from held_by_a1
                   [(1000, Coordinate (request "A" "db:accounts" 5));
                    (2000, Coordinate (request "B" "db:accounts" 5));
                    (3000, Coordinate (request "C" "db:accounts" 5));
                    (4000, Release "a1" "db:accounts");
                    (5000, Release "A" "db:accounts")]) !! "db:accounts"
    = Some "B"
  ∧ BusinessLock.lockedBy
      <$> locks (run_from held_by_a1
                   [(1000, Coordinate (request "A" "db:accounts" 5));
                    (2000, Coordinate (request "B" "db:accounts" 5));
                    (3000, Coordinate (request "C" "db:accounts" 5));
                    (4000, Release "a1" "db:accounts");
                    (5000, Release "A" "db:accounts");
                    (6000, Release "B" "db:accounts")]) !! "db:accounts"
    = Some "C"
  ∧ Forall (served_before
              (entry_of_request 1000 (request "low" "db:accounts" 5)))
      [entry_of_request 3000 (request "late" "db:accounts" 5);
       entry_of_request 2000 (request "lower" "db:accounts" 1)].
Proof.
  destruct (releaseLock_promotes_next
              [(0, Acquire "a1" "db:accounts" (Some 5))] 4000 "a1"
              "db:accounts" (granted_lock 0 "a1" "db:accounts" 5))
    as (Hreleased & Hempty & _ & Hfifo).
  - vm_compute. reflexivity.
  - reflexivity.
  - destruct (Hfifo (request "A" "db:accounts" 5)
                (request "B" "db:accounts" 5) (request "C" "db:accounts" 5)
                1000 2000 3000 4000 5000 6000)
      as (_ & HA & HB & HC & _);
      try reflexivity; try discriminate.
    split_and!; [exact Hreleased | apply Hempty; reflexivity
                | exact HA | exact HB | exact HC |].
    destruct (releaseLock_promotes_next
                [(0, Acquire "a1" "db:accounts" (Some 5));
                 (1000, Coordinate (request "low" "db:accounts" 5));
                 (2000, Coordinate (request "lower" "db:accounts" 1));
                 (3000, Coordinate (request "late" "db:accounts" 5))]
                4000 "a1" "db:accounts" (granted_lock 0 "a1" "db:accounts" 5))
      as (_ & _ & Hbest & _).
    + vm_compute. reflexivity.
    + reflexivity.
    + destruct (Hbest (entry_of_request 1000 (request "low" "db:accounts" 5))
                  [entry_of_request 3000 (request "late" "db:accounts" 5);
                   entry_of_request 2000 (request "lower" "db:accounts" 1)])
        as (_ & _ & _ & _ & _ & Hserved).
      * vm_compute. reflexivity.
      * apply Hserved. unfold chronological. simpl.
        repeat constructor; lia.
Defined.

(** * Further properties of the service *)

(** ** The methods in full *)

Lemma getQueuePosition_eq agentId resource s :
  getQueuePosition agentId resource s =
    (Return (match list_find (entry_of agentId resource) (queue s) with
             | Some (i, _) => Z.of_nat i + 1
             | None => 0
             end), s).
Proof.
  unfold getQueuePosition, bind, queue_get, ret, Array_findIndex.
  destruct (list_find _ _) as [[i e]|]; simpl; [|done].
  destruct (decide _) as [Habs|_]; [lia|done].
Qed.

(** [acquireLock], branch by branch, with what it logs. *)
Lemma acquireLock_eq now agentId resource priority s :
  acquireLock now agentId resource priority s =
    let lock := granted_lock now agentId resource (default 0 priority) in
    let granted lines :=
      (Return (Some lock),
       {| locks := <[resource := lock]> (locks s);
          queue := match list_find (entry_of agentId resource) (queue s) with
                   | Some (i, _) => delete i (queue s)
                   | None => queue s
                   end;
          console := console s ++ lines |}) in
    match locks s !! resource with
    | Some held =>
        if decide (BusinessLock.expiresAt held > now
                   ∧ BusinessLock.lockedBy held ≠ agentId)
        then
          if decide (default 0 priority > BusinessLock.priority held)
          then granted [preemption_line agentId resource
                          (BusinessLock.lockedBy held)]
          else (Return None, s)
        else granted []
    | None => granted []
    end.
Proof.
  unfold acquireLock, bind at 1 2, locks_get. cbv zeta.
  destruct (locks s !! resource) as [held|].
  - destruct (decide (_ ∧ _)).
    + destruct (decide (_ > _)); [|done].
      unfold bind, console_log, ret, locks_set.
      by rewrite removeFromQueue_eq.
    + unfold bind, ret, locks_set. rewrite removeFromQueue_eq. simpl.
      by rewrite app_nil_r.
  - unfold bind, ret, locks_set. rewrite removeFromQueue_eq. simpl.
    by rewrite app_nil_r.
Qed.

(** ** Acquire, status, release *)

(** X1. Round trip. When [acquireLock] grants a lock, the caller is its
    holder; [getLockStatus] then reports that very lock at every instant
    before the 30 second lease runs out and [null] from then on; a release by
    the caller succeeds at any instant, expired lease or not; after it the
    status is [null] when nobody was queued for the resource, and otherwise
    shows the lock granted to the first queued caller at the instant of the
    release. *)
Theorem acquire_status_release_round_trip now agentId resource priority s lock :
  fst (acquireLock now agentId resource priority s) = Return (Some lock) →
  let s1 := snd (acquireLock now agentId resource priority s) in
  BusinessLock.lockedBy lock = agentId
  ∧ BusinessLock.expiresAt lock = now + 30000
  ∧ (∀ t, getLockStatus t resource s1
          = (Return (if decide (t < now + 30000) then Some lock else None), s1))
  ∧ ∀ t,
      let s2 := snd (releaseLock t agentId resource s1) in
      fst (releaseLock t agentId resource s1) = Return true
      ∧ (filter (entry_for resource) (queue s1) = [] →
         ∀ t', getLockStatus t' resource s2 = (Return None, s2))
      ∧ (∀ next rest,
           filter (entry_for resource) (queue s1) = next :: rest →
           ∀ t', getLockStatus t' resource s2
                 = (Return (if decide (t' < t + 30000)
                            then Some (granted_lock t (QueueEntry.agentId next)
                                         resource (QueueEntry.priority next))
                            else None), s2)).
Proof.
  intros Hgranted s1.
  assert (lock = granted_lock now agentId resource (default 0 priority)
          ∧ locks s1 !! resource = Some lock) as [-> Hs1].
  { subst s1. revert Hgranted. rewrite acquireLock_eq. cbv zeta.
    destruct (locks s !! resource) as [held|];
      repeat (destruct (decide _); try done);
      simpl; intros [= <-]; by rewrite lookup_insert_eq. }
  split_and!; [done|done| |].
  - intros t. rewrite getLockStatus_eq, Hs1. simpl.
    by destruct (decide _), (decide _); try lia.
  - intros t s2. subst s2.
    rewrite (releaseLock_by_holder t agentId resource s1 _ Hs1 eq_refl).
    simpl. split_and!; [done| |].
    + intros Hnone%filter_list_find_None t'. rewrite Hnone.
      by rewrite getLockStatus_eq; simpl; rewrite lookup_delete_eq.
    + intros next rest Hfilter t'.
      destruct (filter_head_list_find _ _ _ _ Hfilter) as (i & -> & _).
      rewrite getLockStatus_eq; simpl; rewrite lookup_insert_eq. simpl.
      by destruct (decide _), (decide _); try lia.
Qed.

Lemma acquire_status_release_round_trip_witness :
  getLockStatus 29999 "customer:123"
    (snd (acquireLock 0 "agent-1" "customer:123" (Some 10) init))
  = (Return (Some (granted_lock 0 "agent-1" "customer:123" 10)),
     snd (acquireLock 0 "agent-1" "customer:123" (Some 10) init))
  ∧ fst (releaseLock 5000 "agent-1" "customer:123"
           (snd (acquireLock 0 "agent-1" "customer:123" (Some 10) init)))
    = Return true.
Proof.
  destruct (acquire_status_release_round_trip 0 "agent-1" "customer:123"
              (Some 10) init (granted_lock 0 "agent-1" "customer:123" 10))
    as (_ & _ & Hstatus & Hrelease).
  - vm_compute. reflexivity.
  - split; [exact (Hstatus 29999) | exact (proj1 (Hrelease 5000))].
Defined.

(** X2. Renewal. [acquireLock] by the recorded holder is always granted,
    whatever the priority asked and whether or not the lease has run out: the
    entry is replaced by a lock with the asked priority and a fresh 30 second
    lease, nothing is logged, and the queue entries of other callers stay as
    they are.  [requestCoordination] by the holder of a live lock renews
    nothing: it returns the stored lock and leaves the state as it is. *)
Theorem holder_renews_by_acquireLock now agentId resource priority s held :
  locks s !! resource = Some held →
  BusinessLock.lockedBy held = agentId →
  let lock := granted_lock now agentId resource (default 0 priority) in
  let s' := snd (acquireLock now agentId resource priority s) in
  fst (acquireLock now agentId resource priority s) = Return (Some lock)
  ∧ locks s' = <[resource := lock]> (locks s)
  ∧ console s' = console s
  ∧ filter (λ e, ¬ entry_of agentId resource e) (queue s')
    = filter (λ e, ¬ entry_of agentId resource e) (queue s)
  ∧ (∀ t, t < now + 30000 →
          fst (getLockStatus t resource s') = Return (Some lock))
  ∧ (∀ request,
       CoordinationRequest.agentId request = agentId →
       CoordinationRequest.resource request = resource →
       BusinessLock.expiresAt held > now →
       requestCoordination now request s
       = (Return {| CoordinationResult.granted := true;
                    CoordinationResult.lock := Some held;
                    CoordinationResult.queuePosition := None;
                    CoordinationResult.estimatedWaitMs := None |}, s)).
Proof.
  intros Hheld Hholder lock s'. subst lock s'.
  rewrite acquireLock_eq, Hheld. cbv zeta.
  destruct (decide (_ ∧ _)) as [[_ Hother]|_]; [done|]. simpl.
  split_and!; [done|done|by rewrite app_nil_r| | |].
  - destruct (list_find _ _) as [[i e]|] eqn:Hfind; [|done].
    apply list_find_Some in Hfind as (Hi & He & _).
    rewrite <- (take_drop_middle (queue s) i e Hi) at 2.
    rewrite delete_take_drop, !filter_app, filter_cons_False; [done|].
    by intros Hn.
  - intros t Ht. rewrite getLockStatus_eq. simpl. rewrite lookup_insert_eq.
    simpl. destruct (decide _); [done|lia].
  - intros request Ha Hr Hlive.
    apply requestCoordination_holder; by rewrite ?Hr, ?Ha.
Qed.

Lemma holder_renews_by_acquireLock_witness :
  fst (acquireLock 40000 "a1" "db:accounts" None held_by_a1)
  = Return (Some (granted_lock 40000 "a1" "db:accounts" 0))
  ∧ requestCoordination 1000 (request "a1" "db:accounts" 9) held_by_a1
    = (Return {| CoordinationResult.granted := true;
                 CoordinationResult.lock :=
                   Some (granted_lock 0 "a1" "db:accounts" 5);
                 CoordinationResult.queuePosition := None;
                 CoordinationResult.estimatedWaitMs := None |}, held_by_a1).
Proof.
  destruct (holder_renews_by_acquireLock 40000 "a1" "db:accounts" None
              held_by_a1 (granted_lock 0 "a1" "db:accounts" 5))
    as (Hgranted & _).
  - vm_compute. reflexivity.
  - reflexivity.
  - split; [exact Hgranted|].
    destruct (holder_renews_by_acquireLock 1000 "a1" "db:accounts" None
                held_by_a1 (granted_lock 0 "a1" "db:accounts" 5))
      as (_ & _ & _ & _ & _ & Hcoordinate).
    + vm_compute. reflexivity.
    + reflexivity.
    + apply (Hcoordinate (request "a1" "db:accounts" 9));
        [reflexivity|reflexivity|vm_compute; reflexivity].
Defined.

(** X3. The outcomes of [requestCoordination].  The call never throws.  It is
    granted exactly when the resource has no live lock of another caller,
    whatever the priorities; then the result carries a lock held by the
    caller, which is the one the lock table records for the resource, and no
    queue position.  Otherwise the result carries no lock but always a queue
    position and an estimate, the position being that of the caller's entry
    in the queue, at least 1: the bare [{ granted: false }] of the last line
    of the method is never returned. *)
Theorem requestCoordination_outcomes now request s :
  let agentId := CoordinationRequest.agentId request in
  let resource := CoordinationRequest.resource request in
  let s' := snd (requestCoordination now request s) in
  ∃ result,
    fst (requestCoordination now request s) = Return result
    ∧ (CoordinationResult.granted result = true
       ↔ ¬ ∃ held, locks s !! resource = Some held
                   ∧ BusinessLock.expiresAt held > now
                   ∧ BusinessLock.lockedBy held ≠ agentId)
    ∧ if CoordinationResult.granted result
      then (∃ lock, CoordinationResult.lock result = Some lock
                    ∧ BusinessLock.lockedBy lock = agentId
                    ∧ locks s' !! resource = Some lock)
           ∧ CoordinationResult.queuePosition result = None
           ∧ CoordinationResult.estimatedWaitMs result = None
      else CoordinationResult.lock result = None
           ∧ ∃ position,
               CoordinationResult.queuePosition result
               = Some (JsPromise position)
               ∧ CoordinationResult.estimatedWaitMs result
                 = Some (js_times (JsPromise position) 5000)
               ∧ fst (getQueuePosition agentId resource s') = Return position
               ∧ 1 ≤ position.
Proof.
  intros agentId resource s'. subst agentId resource s'.
  destruct (locks s !! CoordinationRequest.resource request) as [held|]
    eqn:Hheld.
  - destruct (decide (BusinessLock.expiresAt held > now)) as [Hlive|Hdead].
    + destruct (decide (BusinessLock.lockedBy held
                        = CoordinationRequest.agentId request))
        as [Hown|Hother].
      * rewrite (requestCoordination_holder now request s held) by done.
        eexists. split; [done|]. simpl. split.
        -- split; [|done]. intros _ (held' & [= <-] & _ & Hn). done.
        -- split; [|done]. by exists held.
      * destruct (requestCoordination_queued now request s held)
          as (position & -> & Hposition); [done..|].
        eexists. split; [done|]. simpl. split.
        -- split; [done|]. intros Hn. destruct Hn. by exists held.
        -- split; [done|]. exists position. split_and!; [done..|].
           revert Hposition. rewrite getQueuePosition_eq. simpl.
           destruct (list_find _ _) as [[i e]|] eqn:Hfind.
           ++ intros [= <-]. lia.
           ++ exfalso. apply list_find_None in Hfind. revert Hfind.
              rewrite addToQueue_eq. simpl.
              destruct (list_find _ (queue s)) as [[i e]|] eqn:Hfind'.
              ** apply list_find_Some in Hfind' as (Hi & He & _).
                 rewrite Forall_forall. intros Hall.
                 by apply (Hall e); [eapply list_elem_of_lookup_2|].
              ** rewrite Array_sort_perm, Forall_app, Forall_singleton.
                 intros [_ Hn]. by apply Hn.
    + rewrite requestCoordination_free.
      2:{ intros held'. rewrite Hheld. intros [= <-]. lia. }
      eexists. split; [done|]. simpl. split.
      * split; [|done]. intros _ (held' & [= <-] & Hlive & _). lia.
      * split; [|done]. eexists. split_and!; [done..|].
        rewrite acquireLock_eq, Hheld. cbv zeta.
        destruct (decide (_ ∧ _)) as [[Hlive _]|_]; [lia|].
        simpl. by rewrite lookup_insert_eq.
  - rewrite requestCoordination_free.
    2:{ intros held'. by rewrite Hheld. }
    eexists. split; [done|]. simpl. split.
    + split; [|done]. by intros _ (held' & [=] & _).
    + split; [|done]. eexists. split_and!; [done..|].
      rewrite acquireLock_eq, Hheld. simpl. by rewrite lookup_insert_eq.
Qed.

(** ** One call, case by case *)

Lemma first_for_resource_is_first_of_caller resource (q : list QueueEntry.t)
    i next :
  list_find (entry_for resource) q = Some (i, next) →
  list_find (entry_of (QueueEntry.agentId next) resource) q = Some (i, next).
Proof.
  intros (Hi & Hfor & Hfirst)%list_find_Some. apply list_find_Some.
  split_and!; [done|by split|].
  intros j y Hj Hlt [_ Hy]. by apply (Hfirst j y).
Qed.

(** The state a call leaves is the state it found, or that state after a
    grant, after the deletion of a lock nobody waits for, or after an
    enqueueing. *)
Lemma step_cases now c s :
  step now c s = s
  ∨ (∃ agentId priority lines,
       step now c s
       = {| locks := <[resource_of c :=
                        granted_lock now agentId (resource_of c) priority]>
                       (locks s);
            queue := match list_find (entry_of agentId (resource_of c))
                                     (queue s) with
                     | Some (i, _) => delete i (queue s)
                     | None => queue s
                     end;
            console := console s ++ lines |}
       ∧ (lines = []
          ∨ ∃ asked held,
              c = Acquire agentId (resource_of c) asked
              ∧ priority = default 0 asked
              ∧ locks s !! resource_of c = Some held
              ∧ BusinessLock.expiresAt held > now
              ∧ BusinessLock.lockedBy held ≠ agentId
              ∧ default 0 asked > BusinessLock.priority held
              ∧ lines = [preemption_line agentId (resource_of c)
                           (BusinessLock.lockedBy held)]))
  ∨ (list_find (entry_for (resource_of c)) (queue s) = None
     ∧ step now c s
       = {| locks := delete (resource_of c) (locks s);
            queue := queue s;
            console := console s |})
  ∨ (∃ request held,
       c = Coordinate request
       ∧ locks s !! resource_of c = Some held
       ∧ BusinessLock.expiresAt held > now
       ∧ BusinessLock.lockedBy held ≠ CoordinationRequest.agentId request
       ∧ step now c s
         = {| locks := locks s;
              queue :=
                match list_find
                        (entry_of (CoordinationRequest.agentId request)
                                  (CoordinationRequest.resource request))
                        (queue s) with
                | Some _ => queue s
                | None => Array_sort by_priority
                            (queue s ++ [entry_of_request now request])
                end;
              console := console s |}).
Proof.
  assert (∀ agentId resource asked,
    resource = resource_of c →
    (∀ held, locks s !! resource = Some held →
             BusinessLock.expiresAt held > now →
             BusinessLock.lockedBy held ≠ agentId →
             default 0 asked > BusinessLock.priority held →
             c = Acquire agentId resource asked) →
    snd (acquireLock now agentId resource asked s) = s
    ∨ ∃ caller priority lines,
        snd (acquireLock now agentId resource asked s)
        = {| locks := <[resource_of c :=
                         granted_lock now caller (resource_of c) priority]>
                        (locks s);
             queue := match list_find (entry_of caller (resource_of c))
                                      (queue s) with
                      | Some (i, _) => delete i (queue s)
                      | None => queue s
                      end;
             console := console s ++ lines |}
        ∧ (lines = []
           ∨ ∃ asked held,
               c = Acquire caller (resource_of c) asked
               ∧ priority = default 0 asked
               ∧ locks s !! resource_of c = Some held
               ∧ BusinessLock.expiresAt held > now
               ∧ BusinessLock.lockedBy held ≠ caller
               ∧ default 0 asked > BusinessLock.priority held
               ∧ lines = [preemption_line caller (resource_of c)
                            (BusinessLock.lockedBy held)])) as Hacquire.
  { intros agentId resource asked -> Hcall. rewrite acquireLock_eq. cbv zeta.
    destruct (locks s !! resource_of c) as [held|] eqn:Hheld.
    - destruct (decide (_ ∧ _)) as [[Hlive Hother]|_].
      + destruct (decide (_ > _)) as [Hgt|_]; [|by left].
        right. simpl.
        exists agentId, (default 0 asked),
          [preemption_line agentId (resource_of c) (BusinessLock.lockedBy held)].
        split; [done|]. right.
        exists asked, held. by rewrite <- (Hcall held).
      + right. simpl. exists agentId, (default 0 asked), [].
        split; [done|by left].
    - right. simpl. exists agentId, (default 0 asked), [].
      split; [done|by left]. }
  destruct c as [request|agentId resource asked|agentId resource
                |resource|agentId resource]; simpl.
  - assert (∃ o, locks s !! CoordinationRequest.resource request = o)
      as [[held|] Hheld] by eauto.
    + destruct (decide (BusinessLock.expiresAt held > now)) as [Hlive|Hdead].
      * destruct (decide (BusinessLock.lockedBy held
                          = CoordinationRequest.agentId request))
          as [Hown|Hother].
        { left. by rewrite (requestCoordination_holder now request s held). }
        do 3 right. exists request, held.
        destruct (requestCoordination_queued now request s held)
          as (position & -> & _); [done..|].
        by rewrite addToQueue_eq.
      * rewrite requestCoordination_free.
        2:{ intros held'. rewrite Hheld. intros [= <-]. lia. }
        simpl. destruct (Hacquire (CoordinationRequest.agentId request)
          (CoordinationRequest.resource request)
          (Some (CoordinationRequest.priority request)) eq_refl) as [Hs|Hg];
          [|left; exact Hs|right; left; exact Hg].
        intros held'. rewrite Hheld. intros [= <-]. lia.
    + rewrite requestCoordination_free.
      2:{ intros held'. by rewrite Hheld. }
      simpl. destruct (Hacquire (CoordinationRequest.agentId request)
        (CoordinationRequest.resource request)
        (Some (CoordinationRequest.priority request)) eq_refl) as [Hs|Hg];
        [|left; exact Hs|right; left; exact Hg].
      intros held'. by rewrite Hheld.
  - destruct (Hacquire agentId resource asked eq_refl) as [Hs|Hg];
      [done|left; exact Hs|right; left; exact Hg].
  - assert (∃ o, locks s !! resource = o) as [[held|] Hheld] by eauto.
    + destruct (decide (BusinessLock.lockedBy held = agentId)) as [Hown|Hother].
      * rewrite (releaseLock_by_holder now agentId resource s held) by done.
        simpl. destruct (list_find _ _) as [[i next]|] eqn:Hfind; simpl.
        -- right; left. exists (QueueEntry.agentId next),
             (QueueEntry.priority next), [].
           rewrite (first_for_resource_is_first_of_caller _ _ _ _ Hfind).
           rewrite app_nil_r. auto.
        -- right; right; left. auto.
      * left. by rewrite (releaseLock_conflict now agentId resource s held).
    + left. by rewrite releaseLock_unlocked.
  - left. by rewrite getLockStatus_eq.
  - by left.
Qed.

(** ** Invariants kept along every history *)

Lemma delete_other_key {A B} (f : A → B) (q : list A) i e0 e :
  NoDup (f <$> q) → q !! i = Some e0 → e ∈ delete i q → f e ≠ f e0.
Proof.
  intros Hnodup Hi Hin Heq.
  rewrite <- (take_drop_middle q i e0 Hi), fmap_app, fmap_cons in Hnodup.
  apply NoDup_app in Hnodup as (_ & Hbefore & Hafter).
  apply NoDup_cons in Hafter as [Hafter _].
  rewrite delete_take_drop in Hin. apply elem_of_app in Hin as [Hin|Hin].
  - apply (Hbefore (f e)); [by apply list_elem_of_fmap_2|].
    rewrite Heq. constructor.
  - apply Hafter. rewrite <- Heq. by apply list_elem_of_fmap_2.
Qed.

Lemma elem_of_delete {A} (q : list A) i e : e ∈ delete i q → e ∈ q.
Proof. apply sublist_subseteq, sublist_delete. Qed.

Lemma step_waiting_behind_holder now c s :
  NoDup (entry_key <$> queue s) →
  waiting_behind_holder s → waiting_behind_holder (step now c s).
Proof.
  intros Hnodup Hwait.
  destruct (step_cases now c s)
    as [->|[(agentId & priority & lines & -> & _)
           |[[Hnone ->]|(request & held & -> & Hheld & Hlive & Hother & ->)]]];
    [done|..]; intros e; simpl.
  - intros He.
    assert (e ∈ queue s ∧ ¬ entry_of agentId (resource_of c) e) as [Hin Hkey].
    { destruct (list_find _ _) as [[i e0]|] eqn:Hfind.
      - apply list_find_Some in Hfind as (Hi & [Ha0 Hr0] & _).
        split; [by eapply elem_of_delete|]. intros [Ha Hr].
        apply (delete_other_key entry_key (queue s) i e0 e); [done..|].
        unfold entry_key. congruence.
      - split; [done|]. apply list_find_None in Hfind.
        rewrite Forall_forall in Hfind. by apply Hfind. }
    destruct (decide (QueueEntry.resource e = resource_of c)) as [Hr|Hr].
    + rewrite Hr, lookup_insert_eq. eexists. split; [done|]. simpl.
      intros Ha. by apply Hkey.
    + rewrite lookup_insert_ne by done. by apply Hwait.
  - intros He. apply list_find_None in Hnone. rewrite Forall_forall in Hnone.
    rewrite lookup_delete_ne by (intros Hr; by apply (Hnone e)).
    by apply Hwait.
  - simpl in Hheld. destruct (list_find _ _) as [[i e0]|]; [apply Hwait|].
    rewrite Array_sort_perm, elem_of_app, list_elem_of_singleton.
    intros [He| ->]; [by apply Hwait|]. by exists held.
Qed.

Lemma run_from_waiting_behind_holder history s :
  well_formed s → waiting_behind_holder s →
  waiting_behind_holder (run_from s history).
Proof.
  revert s. induction history as [|[now c] history IH]; intros s Hwf Hwait;
    [done|].
  apply IH; [by apply step_well_formed|].
  apply step_waiting_behind_holder; [apply (wf_nodup _ Hwf)|done].
Qed.

(** X4. No waiting without a holder.  After every history, a caller with a
    queue position on a resource is not its recorded holder: the lock table
    has an entry for the resource, held by someone else.  So a caller is
    never holder and waiter of one resource, and a release by a waiting
    caller is always refused with [ConflictException]. *)
Theorem queued_callers_wait_behind_a_holder history agentId resource position :
  fst (getQueuePosition agentId resource (run history)) = Return position →
  position ≠ 0 →
  ∃ held,
    locks (run history) !! resource = Some held
    ∧ BusinessLock.lockedBy held ≠ agentId
    ∧ ∀ now, ∃ message,
        releaseLock now agentId resource (run history)
        = (Throw (ConflictException message), run history).
Proof.
  rewrite getQueuePosition_eq. simpl.
  destruct (list_find _ _) as [[i e]|] eqn:Hfind; [|by intros [= <-]].
  intros _ _. apply list_find_Some in Hfind as (Hi & [<- <-] & _).
  destruct (run_from_waiting_behind_holder history init init_well_formed)
    with (e := e) as (held & Hheld & Hother).
  - intros e' He'. by apply elem_of_nil in He'.
  - by eapply list_elem_of_lookup_2.
  - exists held. split_and!; [done..|]. intros now. eexists.
    by apply releaseLock_conflict.
Qed.

Lemma queued_callers_wait_behind_a_holder_witness :
  ∃ held,
    locks a2_queued !! "db:accounts" = Some held
    ∧ BusinessLock.lockedBy held ≠ "a2"
    ∧ ∀ now, ∃ message,
        releaseLock now "a2" "db:accounts" a2_queued
        = (Throw (ConflictException message), a2_queued).
Proof.
  apply (queued_callers_wait_behind_a_holder
           [(0, Acquire "a1" "db:accounts" (Some 5));
            (1000, Coordinate (request "a2" "db:accounts" 1))]
           "a2" "db:accounts" 1).
  - vm_compute. reflexivity.
  - discriminate.
Defined.

Lemma StronglySorted_lookup_lt {A} (R : relation A) (q : list A) i j a b :
  StronglySorted R q → q !! i = Some a → q !! j = Some b → (i < j)%nat →
  R a b.
Proof.
  intros Hq. revert i j. induction Hq as [|x q Hq IH Hx]; intros i j Hi Hj Hlt;
    [done|].
  destruct j as [|j]; [lia|]. destruct i as [|i]; simpl in *.
  - injection Hi as ->. rewrite Forall_forall in Hx. apply Hx.
    by eapply list_elem_of_lookup_2.
  - apply (IH i j); [done..|lia].
Qed.

(** X5. Positions follow priorities.  After every history, of two queued
    entries the one with the strictly higher priority has the strictly
    smaller queue position, whatever resources the two are queued for. *)
Theorem higher_priority_is_ahead history e1 e2 position1 position2 :
  e1 ∈ queue (run history) →
  e2 ∈ queue (run history) →
  QueueEntry.priority e2 < QueueEntry.priority e1 →
  fst (getQueuePosition (QueueEntry.agentId e1) (QueueEntry.resource e1)
         (run history)) = Return position1 →
  fst (getQueuePosition (QueueEntry.agentId e2) (QueueEntry.resource e2)
         (run history)) = Return position2 →
  1 ≤ position1 < position2.
Proof.
  pose proof (run_well_formed history) as [_ Hnodup Hsorted].
  set (q := queue (run history)) in *.
  assert (∀ e, e ∈ q →
            ∃ i, q !! i = Some e
                 ∧ fst (getQueuePosition (QueueEntry.agentId e)
                          (QueueEntry.resource e) (run history))
                   = Return (Z.of_nat i + 1)) as Hposition.
  { intros e He. rewrite getQueuePosition_eq. simpl. fold q.
    destruct (list_find_elem_of
                (entry_of (QueueEntry.agentId e) (QueueEntry.resource e))
                q e He) as [[i e'] Hfind]; [done|].
    rewrite Hfind. exists i. split; [|done].
    apply list_find_Some in Hfind as (Hi & [Ha Hr] & _).
    apply list_elem_of_lookup in He as [j Hj].
    assert (i = j) as ->; [|done].
    apply (NoDup_lookup (entry_key <$> q) i j (entry_key e)); [done|..].
    - rewrite list_lookup_fmap, Hi. simpl. unfold entry_key. congruence.
    - by rewrite list_lookup_fmap, Hj. }
  intros He1 He2 Hlt Hp1 Hp2.
  destruct (Hposition e1 He1) as (i1 & Hi1 & Hp1').
  destruct (Hposition e2 He2) as (i2 & Hi2 & Hp2').
  rewrite Hp1 in Hp1'. rewrite Hp2 in Hp2'.
  injection Hp1' as ->. injection Hp2' as ->.
  split; [lia|].
  destruct (decide (i1 < i2)%nat) as [?|Hge]; [lia|exfalso].
  destruct (decide (i1 = i2)) as [->|Hne].
  - rewrite Hi1 in Hi2. injection Hi2 as ->. lia.
  - assert (higher_first e2 e1) as Hle; [|unfold higher_first in Hle; lia].
    apply (StronglySorted_lookup_lt higher_first q i2 i1); [done..|lia].
Qed.

Lemma higher_priority_is_ahead_witness : 1 ≤ 1 < 2.
Proof.
  apply (higher_priority_is_ahead
           [(0, Acquire "a1" "db:accounts" (Some 5));
            (0, Acquire "a4" "db:cards" (Some 5));
            (1000, Coordinate (request "a2" "db:cards" 10));
            (2000, Coordinate (request "a3" "db:accounts" 5))]
           (entry_of_request 1000 (request "a2" "db:cards" 10))
           (entry_of_request 2000 (request "a3" "db:accounts" 5))).
  - vm_compute. constructor.
  - vm_compute. do 2 constructor.
  - vm_compute. reflexivity.
  - vm_compute. reflexivity.
  - vm_compute. reflexivity.
Defined.

(** X6. Leases are bounded.  When every call of a history ran at or before
    [clock], no lock outlives [clock + 30000]: from that instant on
    [getLockStatus] reports [null] for every resource, although no release
    was called and the entries are still in the lock table. *)
Theorem no_lock_outlives_its_lease history clock resource t :
  Forall (λ call, fst call ≤ clock) history →
  clock + 30000 ≤ t →
  getLockStatus t resource (run history) = (Return None, run history).
Proof.
  intros Hpast Ht.
  assert (∀ key lock, locks (run history) !! key = Some lock →
                      BusinessLock.expiresAt lock ≤ clock + 30000) as Hbound.
  { unfold run.
    assert (∀ key lock, locks init !! key = Some lock →
                        BusinessLock.expiresAt lock ≤ clock + 30000) as Hinit
      by done.
    revert Hinit. generalize init as s. clear Ht.
    induction Hpast as [|[now c] history Hnow Hpast IH]; intros s Hs; [done|].
    simpl in *. apply IH. intros key lock.
    destruct (step_cases now c s)
      as [->|[(agentId & priority & lines & -> & _)
             |[[_ ->]|(request & held & _ & _ & _ & _ & ->)]]]; simpl.
    - apply Hs.
    - intros [[_ <-]|[_ Hl]]%lookup_insert_Some; [simpl; lia|by eapply Hs].
    - intros [_ Hl]%lookup_delete_Some. by eapply Hs.
    - apply Hs. }
  rewrite getLockStatus_eq.
  destruct (locks (run history) !! resource) as [lock|] eqn:Hlock; [|done].
  destruct (decide _) as [Hlive|_]; [|done].
  specialize (Hbound resource lock Hlock). lia.
Qed.

Lemma no_lock_outlives_its_lease_witness :
  getLockStatus 32000 "db:accounts" a3_promoted = (Return None, a3_promoted).
Proof.
  apply (no_lock_outlives_its_lease
           [(0, Acquire "a1" "db:accounts" (Some 5));
            (1000, Coordinate (request "a3" "db:accounts" 5));
            (2000, Release "a1" "db:accounts")] 2000 "db:accounts" 32000).
  - repeat constructor; simpl; lia.
  - lia.
Defined.

(** X7. Only a preemption is logged.  A call adds a line to the console
    exactly when it is an [acquireLock] that finds a live lock of another
    caller with a strictly lower priority; the line names the caller, the
    resource and the preempted holder.  [requestCoordination], [releaseLock]
    with its promotion, and the two queries never log. *)
Theorem console_records_preemptions_only now c s :
  (∀ agentId resource asked held,
     c = Acquire agentId resource asked →
     locks s !! resource = Some held →
     BusinessLock.expiresAt held > now →
     BusinessLock.lockedBy held ≠ agentId →
     default 0 asked > BusinessLock.priority held →
     console (step now c s)
     = console s ++ [preemption_line agentId resource
                       (BusinessLock.lockedBy held)])
  ∧ ((¬ ∃ agentId resource asked held,
          c = Acquire agentId resource asked
          ∧ locks s !! resource = Some held
          ∧ BusinessLock.expiresAt held > now
          ∧ BusinessLock.lockedBy held ≠ agentId
          ∧ default 0 asked > BusinessLock.priority held) →
     console (step now c s) = console s).
Proof.
  split.
  - intros agentId resource asked held -> Hheld Hlive Hother Hgt. simpl.
    rewrite acquireLock_eq, Hheld. cbv zeta.
    destruct (decide (_ ∧ _)) as [_|Hn]; [|by destruct Hn].
    by destruct (decide (_ > _)).
  - intros Hno.
    destruct (step_cases now c s)
      as [->|[(agentId & priority & lines & -> & Hlines)
             |[[_ ->]|(request & held & _ & _ & _ & _ & ->)]]]; simpl;
      [done| |done..].
    destruct Hlines as [->|(asked & held & Hc & _ & Hheld & Hlive & Hother
                            & Hgt & _)].
    + by rewrite app_nil_r.
    + destruct Hno. by exists agentId, (resource_of c), asked, held.
Qed.

Lemma console_records_preemptions_only_witness :
  console (step 1000 (Acquire "a2" "db:accounts" (Some 10)) held_by_a1)
  = ["Agent a2 preempted lock on db:accounts from a1"]
  ∧ console (step 1000 (Coordinate (request "a2" "db:accounts" 10))
               held_by_a1)
    = [].
Proof.
  split.
  - apply (proj1 (console_records_preemptions_only 1000
                    (Acquire "a2" "db:accounts" (Some 10)) held_by_a1)
             "a2" "db:accounts" (Some 10)
             (granted_lock 0 "a1" "db:accounts" 5)).
    + reflexivity.
    + vm_compute. reflexivity.
    + vm_compute. reflexivity.
    + vm_compute. discriminate.
    + vm_compute. reflexivity.
  - apply (proj2 (console_records_preemptions_only 1000
                    (Coordinate (request "a2" "db:accounts" 10)) held_by_a1)).
    intros (agentId & resource & asked & held & Hc & _). discriminate Hc.
Defined.

(** ** Resources are independent *)

Lemma filter_delete_other {A} (P : A → Prop) `{∀ x, Decision (P x)}
    (q : list A) i e :
  q !! i = Some e → ¬ P e → filter P (delete i q) = filter P q.
Proof.
  intros Hi He. rewrite <- (take_drop_middle q i e Hi) at 2.
  by rewrite delete_take_drop, !filter_app, filter_cons_False.
Qed.

Lemma filter_settle_other (P : QueueEntry.t → Prop) `{∀ x, Decision (P x)}
    x q :
  ¬ P x → filter P (settle x q) = filter P q.
Proof.
  intros Hx. induction q as [|y q IH]; simpl.
  - by rewrite filter_cons_False.
  - destruct (decide _).
    + by rewrite !(filter_cons _ y), IH.
    + by rewrite filter_cons_False.
Qed.

(** X8. Calls on one resource leave the others alone.  After every history,
    a call that names a resource changes neither the lock entry of any other
    resource nor the entries queued for any other resource, nor their
    order. *)
Theorem calls_touch_one_resource history now c other :
  other ≠ resource_of c →
  locks (step now c (run history)) !! other = locks (run history) !! other
  ∧ filter (entry_for other) (queue (step now c (run history)))
    = filter (entry_for other) (queue (run history)).
Proof.
  intros Hother. pose proof (wf_sorted _ (run_well_formed history)) as Hsorted.
  set (s := run history) in *.
  destruct (step_cases now c s)
    as [->|[(agentId & priority & lines & -> & _)
           |[[_ ->]|(request & held & -> & _ & _ & _ & ->)]]]; simpl.
  - done.
  - rewrite lookup_insert_ne by done. split; [done|].
    destruct (list_find _ _) as [[i e]|] eqn:Hfind; [|done].
    apply list_find_Some in Hfind as (Hi & [_ Hr] & _).
    apply (filter_delete_other _ _ _ _ Hi). unfold entry_for. congruence.
  - by rewrite lookup_delete_ne.
  - split; [done|]. destruct (list_find _ _) as [[i e]|]; [done|].
    rewrite Array_sort_push by done. apply filter_settle_other.
    unfold entry_for. simpl in *. congruence.
Qed.

Lemma calls_touch_one_resource_witness :
  locks (step 3000 (Release "a1" "db:accounts") two_resources) !! "db:cards"
  = locks two_resources !! "db:cards"
  ∧ filter (entry_for "db:cards")
      (queue (step 3000 (Release "a1" "db:accounts") two_resources))
    = filter (entry_for "db:cards") (queue two_resources).
Proof.
  apply (calls_touch_one_resource
           [(0, Acquire "a1" "db:accounts" (Some 5));
            (0, Acquire "a4" "db:cards" (Some 5));
            (1000, Coordinate (request "a2" "db:cards" 10));
            (2000, Coordinate (request "a3" "db:accounts" 5))]
           3000 (Release "a1" "db:accounts") "db:cards").
  discriminate.
Defined.

(** ** Expiry and the queue *)

(** X9. An expired lock is taken past the queue.  When the lease recorded for
    a resource has run out, [acquireLock] and [requestCoordination] alike
    give the lock to whoever calls, queued or not and whatever the
    priorities; nothing is logged, nobody is promoted, and the entries of the
    other callers stay in the queue in their order. *)
Theorem expired_lock_is_taken_past_the_queue now request s held :
  let agentId := CoordinationRequest.agentId request in
  let resource := CoordinationRequest.resource request in
  let priority := CoordinationRequest.priority request in
  let lock := granted_lock now agentId resource priority in
  locks s !! resource = Some held →
  BusinessLock.expiresAt held ≤ now →
  fst (acquireLock now agentId resource (Some priority) s)
  = Return (Some lock)
  ∧ fst (requestCoordination now request s)
    = Return {| CoordinationResult.granted := true;
                CoordinationResult.lock := Some lock;
                CoordinationResult.queuePosition := None;
                CoordinationResult.estimatedWaitMs := None |}
  ∧ snd (requestCoordination now request s)
    = snd (acquireLock now agentId resource (Some priority) s)
  ∧ locks (snd (requestCoordination now request s))
    = <[resource := lock]> (locks s)
  ∧ console (snd (requestCoordination now request s)) = console s
  ∧ filter (λ e, ¬ entry_of agentId resource e)
           (queue (snd (requestCoordination now request s)))
    = filter (λ e, ¬ entry_of agentId resource e) (queue s).
Proof.
  intros agentId resource priority lock Hheld Hexpired.
  subst agentId resource priority lock.
  rewrite requestCoordination_free.
  2:{ intros held'. rewrite Hheld. by intros [= <-]. }
  simpl. rewrite acquireLock_eq, Hheld. cbv zeta.
  destruct (decide (_ ∧ _)) as [[Hlive _]|_]; [lia|]. simpl.
  split_and!; [done..|by rewrite app_nil_r|].
  destruct (list_find _ _) as [[i e]|] eqn:Hfind; [|done].
  apply list_find_Some in Hfind as (Hi & He & _).
  apply (filter_delete_other _ _ _ _ Hi). by intros Hn.
Qed.

Lemma expired_lock_is_taken_past_the_queue_witness :
  fst (requestCoordination 31000 (request "a9" "db:accounts" 0) a2_queued)
  = Return {| CoordinationResult.granted := true;
              CoordinationResult.lock :=
                Some (granted_lock 31000 "a9" "db:accounts" 0);
              CoordinationResult.queuePosition := None;
              CoordinationResult.estimatedWaitMs := None |}
  ∧ filter (λ e, ¬ entry_of "a9" "db:accounts" e)
           (queue (snd (requestCoordination 31000
                          (request "a9" "db:accounts" 0) a2_queued)))
    = filter (λ e, ¬ entry_of "a9" "db:accounts" e) (queue a2_queued).
Proof.
  destruct (expired_lock_is_taken_past_the_queue 31000
              (request "a9" "db:accounts" 0) a2_queued
              (granted_lock 0 "a1" "db:accounts" 5))
    as (_ & Hresult & _ & _ & _ & Hqueue).
  - vm_compute. reflexivity.
  - vm_compute. discriminate.
  - split; [exact Hresult|exact Hqueue].
Defined.

(** ** Entering and leaving the queue *)

Lemma settle_find_delete (P : QueueEntry.t → Prop) `{∀ x, Decision (P x)}
    x q :
  P x → Forall (λ y, ¬ P y) q →
  ∃ k, list_find P (settle x q) = Some (k, x) ∧ delete k (settle x q) = q.
Proof.
  intros Hx Hq. induction Hq as [|y q Hy Hq IH]; simpl.
  - exists 0%nat. by rewrite decide_True.
  - destruct (decide (QueueEntry.priority x ≤ QueueEntry.priority y)).
    + destruct IH as (k & Hfind & Hdelete). exists (S k). simpl.
      rewrite decide_False by done. rewrite Hfind. simpl. by rewrite Hdelete.
    + exists 0%nat. simpl. by rewrite decide_True.
Qed.

Lemma settle_find_index (P : QueueEntry.t → Prop) `{∀ x, Decision (P x)}
    x q :
  StronglySorted higher_first q → P x → Forall (λ y, ¬ P y) q →
  list_find P (settle x q)
  = Some (length (filter (λ e, QueueEntry.priority x ≤ QueueEntry.priority e)
                         q), x).
Proof.
  intros Hsorted Hx Hq. induction Hsorted as [|y q Hsorted IH Hyq]; simpl.
  - by rewrite decide_True.
  - apply Forall_cons in Hq as [Hy Hq]. rewrite (filter_cons _ y).
    destruct (decide (QueueEntry.priority x ≤ QueueEntry.priority y)).
    + simpl. rewrite decide_False by done. by rewrite IH.
    + simpl. rewrite decide_True by done.
      rewrite (proj1 (filter_list_find_None
                        (λ e, QueueEntry.priority x ≤ QueueEntry.priority e) q));
        [done|].
      apply list_find_None. eapply Forall_impl; [exact Hyq|].
      unfold higher_first. intros; simpl in *. lia.
Qed.

(** X10. Round trip through the queue.  After every history, for a caller
    that has no entry for the resource (its position is 0), [addToQueue] gives
    it a position of at least 1 and a following [removeFromQueue] restores
    the state: every other entry is back at its place. *)
Theorem addToQueue_removeFromQueue_round_trip history now request :
  let agentId := CoordinationRequest.agentId request in
  let resource := CoordinationRequest.resource request in
  let queued := snd (addToQueue now request (run history)) in
  fst (getQueuePosition agentId resource (run history)) = Return 0 →
  (∃ position, fst (getQueuePosition agentId resource queued)
               = Return position ∧ 1 ≤ position)
  ∧ removeFromQueue agentId resource queued = (Return tt, run history).
Proof.
  intros agentId resource queued. subst agentId resource queued.
  pose proof (wf_sorted _ (run_well_formed history)) as Hsorted.
  set (s := run history) in *.
  rewrite !getQueuePosition_eq, addToQueue_eq, removeFromQueue_eq. simpl.
  destruct (list_find _ (queue s)) as [[i e]|] eqn:Hfind;
    [intros [= Habs]; lia|intros _].
  rewrite Array_sort_push by done. apply list_find_None in Hfind.
  destruct (settle_find_delete
              (entry_of (CoordinationRequest.agentId request)
                        (CoordinationRequest.resource request))
              (entry_of_request now request) (queue s))
    as (k & -> & ->); [done|done|].
  split; [eexists; split; [done|lia]|]. by rewrite state_eta.
Qed.

Lemma addToQueue_removeFromQueue_round_trip_witness :
  removeFromQueue "a5" "db:accounts"
    (snd (addToQueue 3000 (request "a5" "db:accounts" 7) two_resources))
  = (Return tt, two_resources).
Proof.
  apply (addToQueue_removeFromQueue_round_trip
           [(0, Acquire "a1" "db:accounts" (Some 5));
            (0, Acquire "a4" "db:cards" (Some 5));
            (1000, Coordinate (request "a2" "db:cards" 10));
            (2000, Coordinate (request "a3" "db:accounts" 5))]
           3000 (request "a5" "db:accounts" 7)).
  vm_compute. reflexivity.
Defined.

(** X11. Where a new request lands.  After every history, a coordination
    request that is queued for a caller not queued before gets the position
    one more than the number of entries already queued, for any resource,
    with a priority at least its own: behind its equals, ahead of every
    strictly lower priority. *)
Theorem new_request_lands_behind_its_equals history now request held :
  let agentId := CoordinationRequest.agentId request in
  let resource := CoordinationRequest.resource request in
  locks (run history) !! resource = Some held →
  BusinessLock.expiresAt held > now →
  BusinessLock.lockedBy held ≠ agentId →
  fst (getQueuePosition agentId resource (run history)) = Return 0 →
  fst (getQueuePosition agentId resource
         (step now (Coordinate request) (run history)))
  = Return (Z.of_nat
              (length (filter (λ e, CoordinationRequest.priority request
                                    ≤ QueueEntry.priority e)
                              (queue (run history)))) + 1).
Proof.
  intros agentId resource. subst agentId resource.
  pose proof (wf_sorted _ (run_well_formed history)) as Hsorted.
  set (s := run history) in *. intros Hheld Hlive Hother. cbn [step].
  destruct (requestCoordination_queued now request s held)
    as (position & -> & _); [done..|].
  rewrite !getQueuePosition_eq, addToQueue_eq. simpl.
  destruct (list_find _ (queue s)) as [[i e]|] eqn:Hfind;
    [intros [= Habs]; lia|intros _].
  rewrite Array_sort_push by done. apply list_find_None in Hfind.
  by rewrite (settle_find_index
                (entry_of (CoordinationRequest.agentId request)
                          (CoordinationRequest.resource request))
                (entry_of_request now request) (queue s)).
Qed.

Lemma new_request_lands_behind_its_equals_witness :
  fst (getQueuePosition "a5" "db:accounts"
         (step 3000 (Coordinate (request "a5" "db:accounts" 5))
            two_resources))
  = Return 3.
Proof.
  apply (new_request_lands_behind_its_equals
           [(0, Acquire "a1" "db:accounts" (Some 5));
            (0, Acquire "a4" "db:cards" (Some 5));
            (1000, Coordinate (request "a2" "db:cards" 10));
            (2000, Coordinate (request "a3" "db:accounts" 5))]
           3000 (request "a5" "db:accounts" 5)
           (granted_lock 0 "a1" "db:accounts" 5)).
  - vm_compute. reflexivity.
  - vm_compute. reflexivity.
  - vm_compute. discriminate.
  - vm_compute. reflexivity.
Defined.

(** ** How positions move *)

Lemma list_find_settle_other (P : QueueEntry.t → Prop) `{∀ x, Decision (P x)}
    x q :
  ¬ P x →
  match list_find P q with
  | Some (j, e) =>
      ∃ j', list_find P (settle x q) = Some (j', e) ∧ (j ≤ j' ≤ S j)%nat
  | None => list_find P (settle x q) = None
  end.
Proof.
  intros Hx. induction q as [|y q IH]; simpl.
  - by destruct (decide (P x)).
  - destruct (decide (QueueEntry.priority x ≤ QueueEntry.priority y)); simpl.
    + destruct (decide (P y)); [exists 0%nat; split; [done|lia]|].
      destruct (list_find P q) as [[j e]|]; simpl.
      * destruct IH as (j' & -> & Hj). exists (S j'). split; [done|lia].
      * by rewrite IH.
    + destruct (decide (P x)); [done|]. simpl.
      destruct (decide (P y)); simpl; [exists 1%nat; split; [done|lia]|].
      destruct (list_find P q) as [[j e]|]; simpl; [|done].
      exists (S (S j)). split; [done|lia].
Qed.

Lemma list_find_delete_le agentId resource (q : list QueueEntry.t) i j' e' :
  NoDup (entry_key <$> q) →
  list_find (entry_of agentId resource) (delete i q) = Some (j', e') →
  ∃ j, list_find (entry_of agentId resource) q = Some (j, e') ∧ (j' ≤ j)%nat.
Proof.
  intros Hnodup (Hj' & He' & _)%list_find_Some.
  assert (∃ j'', q !! j'' = Some e' ∧ (j' ≤ j'')%nat) as (j'' & Hj'' & Hle).
  { destruct (decide (j' < i)%nat).
    - exists j'. by rewrite list_lookup_delete_lt in Hj'.
    - exists (S j'). rewrite list_lookup_delete_ge in Hj' by lia.
      split; [done|lia]. }
  destruct (list_find_elem_of (entry_of agentId resource) q e')
    as [[j e] Hfind]; [by eapply list_elem_of_lookup_2|done|].
  pose proof Hfind as (Hj & He & _)%list_find_Some.
  assert (j = j'') as ->.
  { apply (NoDup_lookup (entry_key <$> q) j j'' (agentId, resource));
      [done|..]; rewrite list_lookup_fmap.
    - rewrite Hj. simpl. unfold entry_key. by destruct He as [-> ->].
    - rewrite Hj''. simpl. unfold entry_key. by destruct He' as [-> ->]. }
  rewrite Hj in Hj''. injection Hj'' as ->. by exists j''.
Qed.

(** X12. Waiting callers keep their place.  After every history, a call that
    is not a coordination request never raises anybody's queue position: a
    release, an acquisition or a query leaves each position as it is or
    lowers it, and it queues nobody.  A coordination request pushes a caller
    that is queued back by at most one place. *)
Theorem waiting_callers_keep_their_place history now c agentId resource p p' :
  fst (getQueuePosition agentId resource (run history)) = Return p →
  fst (getQueuePosition agentId resource (step now c (run history)))
  = Return p' →
  ((∀ request, c ≠ Coordinate request) → 0 ≤ p' ≤ p)
  ∧ (p ≠ 0 → p' ≤ p + 1).
Proof.
  pose proof (run_well_formed history) as [_ Hnodup Hsorted].
  set (s := run history) in *.
  rewrite !getQueuePosition_eq. simpl. intros [= <-] [= <-].
  assert (∀ i,
    match list_find (entry_of agentId resource) (delete i (queue s)) with
    | Some (j', _) => Z.of_nat j' + 1
    | None => 0
    end
    ≤ match list_find (entry_of agentId resource) (queue s) with
      | Some (j, _) => Z.of_nat j + 1
      | None => 0
      end) as Hdelete.
  { intros i.
    destruct (list_find _ (delete i (queue s))) as [[j' e']|] eqn:Hfind.
    - destruct (list_find_delete_le _ _ _ _ _ _ Hnodup Hfind)
        as (j & -> & Hle). lia.
    - destruct (list_find _ (queue s)) as [[j e]|]; lia. }
  assert (∀ q : list QueueEntry.t,
    0 ≤ match list_find (entry_of agentId resource) q with
        | Some (j, _) => Z.of_nat j + 1
        | None => 0
        end) as Hnonneg.
  { intros q. destruct (list_find _ q) as [[j e]|]; lia. }
  destruct (step_cases now c s)
    as [->|[(caller & priority & lines & -> & _)
           |[[_ ->]|(request & held & -> & _ & _ & _ & ->)]]]; simpl.
  - split; intros; [split; [apply Hnonneg|]|]; lia.
  - destruct (list_find (entry_of caller _) (queue s)) as [[i e0]|].
    + specialize (Hdelete i). split; [intros _; split; [apply Hnonneg|done]|].
      intros _. lia.
    + split; intros; [split; [apply Hnonneg|]|]; lia.
  - split; intros; [split; [apply Hnonneg|]|]; lia.
  - split; [intros Hno; by destruct (Hno request)|].
    destruct (list_find (entry_of (CoordinationRequest.agentId request) _)
                (queue s)) as [[i e0]|] eqn:Hfind; [intros; lia|].
    rewrite Array_sort_push by done. intros Hp.
    pose proof (list_find_settle_other (entry_of agentId resource)
                  (entry_of_request now request) (queue s)) as Hsettle.
    destruct (list_find (entry_of agentId resource) (queue s))
      as [[j e]|] eqn:Hfind'; [|done].
    destruct Hsettle as (j' & -> & Hj'); [|lia].
    intros [Ha Hr]. simpl in Ha, Hr. subst agentId resource.
    by rewrite Hfind in Hfind'.
Qed.

Lemma waiting_callers_keep_their_place_witness :
  (0 ≤ 1 ≤ 2) ∧ 3 ≤ 2 + 1.
Proof.
  split.
  - apply (waiting_callers_keep_their_place
             [(0, Acquire "a1" "db:accounts" (Some 5));
              (0, Acquire "a4" "db:cards" (Some 5));
              (1000, Coordinate (request "a2" "db:cards" 10));
              (2000, Coordinate (request "a3" "db:accounts" 5))]
             3000 (Release "a4" "db:cards") "a3" "db:accounts" 2 1).
    + vm_compute. reflexivity.
    + vm_compute. reflexivity.
    + discriminate.
  - apply (waiting_callers_keep_their_place
             [(0, Acquire "a1" "db:accounts" (Some 5));
              (0, Acquire "a4" "db:cards" (Some 5));
              (1000, Coordinate (request "a2" "db:cards" 10));
              (2000, Coordinate (request "a3" "db:accounts" 5))]
             3000 (Coordinate (request "a6" "db:cards" 7))
             "a3" "db:accounts" 2 3).
    + vm_compute. reflexivity.
    + vm_compute. reflexivity.
    + discriminate.
Defined.

(** ** Hand-over and double release *)

(** X13. Hand-over.  After every history in which [holder] has the lock on a
    resource nobody is queued for, a coordination request by another caller
    during the lease is queued, and the holder's release then hands the lock
    over without a second request: the lock table records the caller with the
    priority of its request and a 30 second lease from the instant of the
    release, [getLockStatus] shows that lock during the lease, and the
    caller's queue position is back to 0. *)
Theorem release_hands_over_to_the_queued_caller
    history holder held request tQ tR :
  let agentId := CoordinationRequest.agentId request in
  let resource := CoordinationRequest.resource request in
  let lock := granted_lock tR agentId resource
                (CoordinationRequest.priority request) in
  let queued := step tQ (Coordinate request) (run history) in
  let released := step tR (Release holder resource) queued in
  locks (run history) !! resource = Some held →
  BusinessLock.lockedBy held = holder →
  agentId ≠ holder →
  tQ < BusinessLock.expiresAt held →
  filter (entry_for resource) (queue (run history)) = [] →
  fst (releaseLock tR holder resource queued) = Return true
  ∧ locks released !! resource = Some lock
  ∧ (∀ t, t < tR + 30000 →
          fst (getLockStatus t resource released) = Return (Some lock))
  ∧ fst (getQueuePosition agentId resource released) = Return 0.
Proof.
  intros agentId resource lock queued released Hheld Hholder Hother Hlive
    Hnone.
  pose proof (run_well_formed history) as Hwf.
  destruct (coordinate_enqueues tQ request (run history) held)
    as (Hlocks & _ & Hfilter);
    [apply (wf_sorted _ Hwf)|done|lia
    |rewrite Hholder; intros Heq; by apply Hother
    |fold resource; by rewrite Hnone|].
  fold resource queued in Hlocks, Hfilter. rewrite Hnone in Hfilter.
  simpl in Hfilter.
  assert (locks queued !! resource = Some held) as Hheld'
    by by rewrite Hlocks.
  assert (well_formed queued) as Hwf' by by apply step_well_formed.
  destruct (release_promotes_head tR holder resource queued held _ _
              Hheld' Hholder Hfilter)
    as (Hreleased & Hlocks' & _ & i & Hi & Hqueue).
  fold released in Hreleased, Hlocks', Hqueue.
  assert (locks released !! resource = Some lock) as Hlock.
  { by rewrite Hlocks', lookup_insert_eq. }
  split_and!.
  - by rewrite Hreleased.
  - done.
  - intros t Ht. rewrite getLockStatus_eq, Hlock. simpl.
    destruct (decide _); [done|lia].
  - rewrite getQueuePosition_eq, Hqueue. simpl.
    rewrite (proj2 (list_find_None (entry_of agentId resource)
                      (delete i (queue queued)))); [done|].
    apply Forall_forall. intros e He [Ha Hr].
    apply (delete_other_key entry_key (queue queued) i
             (entry_of_request tQ request) e);
      [apply (wf_nodup _ Hwf')|done|done|].
    unfold entry_key. simpl. by rewrite Ha, Hr.
Qed.

Lemma release_hands_over_to_the_queued_caller_witness :
  locks (step 4000 (Release "a1" "db:accounts")
           (step 1000 (Coordinate (request "a2" "db:accounts" 5)) held_by_a1))
    !! "db:accounts"
  = Some (granted_lock 4000 "a2" "db:accounts" 5)
  ∧ fst (getQueuePosition "a2" "db:accounts"
           (step 4000 (Release "a1" "db:accounts")
              (step 1000 (Coordinate (request "a2" "db:accounts" 5))
                 held_by_a1)))
    = Return 0.
Proof.
  destruct (release_hands_over_to_the_queued_caller
              [(0, Acquire "a1" "db:accounts" (Some 5))] "a1"
              (granted_lock 0 "a1" "db:accounts" 5)
              (request "a2" "db:accounts" 5) 1000 4000)
    as (_ & Hlock & _ & Hposition).
  - vm_compute. reflexivity.
  - reflexivity.
  - discriminate.
  - vm_compute. reflexivity.
  - vm_compute. reflexivity.
  - split; [exact Hlock|exact Hposition].
Defined.

(** X14. A second release is refused.  After every history, when the
    recorded holder releases a resource and releases it once more, the second
    call is refused and changes nothing: it returns [{ released: false }]
    when nobody was queued for the resource, and throws
    [ConflictException] when a queued caller was promoted, for that caller is
    never the one who released. *)
Theorem second_release_is_refused history agentId resource held t1 t2 :
  locks (run history) !! resource = Some held →
  BusinessLock.lockedBy held = agentId →
  let released := snd (releaseLock t1 agentId resource (run history)) in
  refused (fst (releaseLock t2 agentId resource released))
  ∧ snd (releaseLock t2 agentId resource released) = released
  ∧ (filter (entry_for resource) (queue (run history)) = [] →
     fst (releaseLock t2 agentId resource released) = Return false)
  ∧ (∀ next rest,
       filter (entry_for resource) (queue (run history)) = next :: rest →
       QueueEntry.agentId next ≠ agentId
       ∧ ∃ message, fst (releaseLock t2 agentId resource released)
                    = Throw (ConflictException message)).
Proof.
  intros Hheld Hholder released. subst released.
  pose proof (run_from_waiting_behind_holder history init init_well_formed)
    as Hwait.
  fold (run history) in Hwait. set (s := run history) in *.
  rewrite (releaseLock_by_holder t1 agentId resource s held) by done.
  simpl.
  destruct (list_find (entry_for resource) (queue s)) as [[i next]|] eqn:Hfind.
  - pose proof Hfind as (Hi & Hfor & _)%list_find_Some.
    destruct (Hwait ltac:(by intros e He; apply elem_of_nil in He) next)
      as (held' & Hheld' & Hother); [by eapply list_elem_of_lookup_2|].
    unfold entry_for in Hfor. rewrite Hfor, Hheld in Hheld'.
    injection Hheld' as <-. rewrite Hholder in Hother.
    set (s1 := {| locks := _; queue := _; console := _ |}).
    rewrite (releaseLock_conflict t2 agentId resource s1
               (granted_lock t1 (QueueEntry.agentId next) resource
                  (QueueEntry.priority next)));
      [|by subst s1; simpl; rewrite lookup_insert_eq|by simpl].
    simpl. split_and!; [constructor|done| |].
    + intros Hnone%filter_list_find_None. congruence.
    + intros next' rest Hfilter.
      apply filter_list_find_Some in Hfind. rewrite Hfilter in Hfind.
      injection Hfind as -> _. split; [done|eauto].
  - set (s1 := {| locks := _; queue := _; console := _ |}).
    rewrite (releaseLock_unlocked t2 agentId resource s1)
      by (subst s1; simpl; by rewrite lookup_delete_eq).
    simpl. split_and!; [constructor|done|done|].
    intros next rest Hfilter. apply filter_list_find_None in Hfind.
    congruence.
Qed.

Lemma second_release_is_refused_witness :
  fst (releaseLock 6000 "a1" "db:accounts"
         (snd (releaseLock 5000 "a1" "db:accounts" held_by_a1)))
  = Return false
  ∧ ∃ message,
      fst (releaseLock 6000 "a1" "db:accounts"
             (snd (releaseLock 5000 "a1" "db:accounts" a2_queued)))
      = Throw (ConflictException message).
Proof.
  split.
  - destruct (second_release_is_refused
                [(0, Acquire "a1" "db:accounts" (Some 5))] "a1" "db:accounts"
                (granted_lock 0 "a1" "db:accounts" 5) 5000 6000)
      as (_ & _ & Hfalse & _).
    + vm_compute. reflexivity.
    + reflexivity.
    + apply Hfalse. vm_compute. reflexivity.
  - destruct (second_release_is_refused
                [(0, Acquire "a1" "db:accounts" (Some 5));
                 (1000, Coordinate (request "a2" "db:accounts" 1))]
                "a1" "db:accounts"
                (granted_lock 0 "a1" "db:accounts" 5) 5000 6000)
      as (_ & _ & _ & Hconflict).
    + vm_compute. reflexivity.
    + reflexivity.
    + apply (Hconflict (entry_of_request 1000 (request "a2" "db:accounts" 1))
               []).
      vm_compute. reflexivity.
Defined.

(** ** The controller *)

(** X15. A lock request without a priority.  [POST arbiter/lock] hands the
    optional [priority] of its body to [acquireLock], where an omitted one
    counts as 0: such a request is granted exactly when every live lock of
    another caller on the resource has a negative priority, and the lock it
    gets has priority 0.  A denial is the normal result [null]; the handler
    never throws. *)
Theorem lock_request_without_priority now dto s :
  AcquireLockDto.priority dto = None →
  let agentId := AcquireLockDto.agentId dto in
  let resource := AcquireLockDto.resource dto in
  (fst (ArbiterController.acquireLock now dto s)
   = Return (Some (granted_lock now agentId resource 0))
   ∨ ArbiterController.acquireLock now dto s = (Return None, s))
  ∧ (fst (ArbiterController.acquireLock now dto s)
     = Return (Some (granted_lock now agentId resource 0))
     ↔ ∀ held, locks s !! resource = Some held →
               BusinessLock.expiresAt held > now →
               BusinessLock.lockedBy held ≠ agentId →
               BusinessLock.priority held < 0).
Proof.
  intros Hpriority agentId resource. subst agentId resource.
  unfold ArbiterController.acquireLock. rewrite Hpriority, acquireLock_eq.
  cbv zeta.
  destruct (locks s !! AcquireLockDto.resource dto) as [held|].
  - destruct (decide (_ ∧ _)) as [[Hlive Hother]|Hn].
    + destruct (decide (_ > _)) as [Hgt|Hle]; simpl in *.
      * split; [by left|]. split; [|done].
        intros _ held' [= <-] _ _. lia.
      * split; [by right|]. split; [done|].
        intros Hall. specialize (Hall held eq_refl Hlive Hother). lia.
    + simpl. split; [by left|]. split; [|done].
      intros _ held' [= <-] Hlive Hother. by destruct Hn.
  - simpl. split; [by left|]. split; [|done]. by intros _ held' [=].
Qed.

Lemma lock_request_without_priority_witness :
  ArbiterController.acquireLock 1000
    {| AcquireLockDto.agentId := "a2";
       AcquireLockDto.resource := "db:accounts";
       AcquireLockDto.priority := None |} held_by_a1
  = (Return None, held_by_a1).
Proof.
  destruct (lock_request_without_priority 1000
              {| AcquireLockDto.agentId := "a2";
                 AcquireLockDto.resource := "db:accounts";
                 AcquireLockDto.priority := None |} held_by_a1 eq_refl)
    as [[Hgranted|Hdenied] _].
  - vm_compute in Hgranted. discriminate Hgranted.
  - exact Hdenied.
Defined.

(** ** What a request's other fields do *)

(** X16. The operation kind and the expected duration are ignored.  Two
    coordination requests that agree on caller, resource and priority have
    the same result and leave the same state, whatever their [operation] and
    [expectedDurationMs]: a [read] excludes like an [exclusive], and the
    lease is 30 seconds whatever duration was announced. *)
Theorem operation_and_duration_are_ignored now request1 request2 s :
  CoordinationRequest.agentId request1 = CoordinationRequest.agentId request2 →
  CoordinationRequest.resource request1
  = CoordinationRequest.resource request2 →
  CoordinationRequest.priority request1
  = CoordinationRequest.priority request2 →
  requestCoordination now request1 s = requestCoordination now request2 s.
Proof.
  destruct request1 as [a1 r1 o1 d1 p1], request2 as [a2 r2 o2 d2 p2].
  simpl. by intros -> -> ->.
Qed.

Lemma operation_and_duration_are_ignored_witness :
  requestCoordination 1000
    {| CoordinationRequest.agentId := "a2";
       CoordinationRequest.resource := "db:accounts";
       CoordinationRequest.operation := read;
       CoordinationRequest.expectedDurationMs := 1;
       CoordinationRequest.priority := 10 |} held_by_a1
  = requestCoordination 1000 (request "a2" "db:accounts" 10) held_by_a1.
Proof.
  apply operation_and_duration_are_ignored; reflexivity.
Defined.

(** ** After a preemption *)

(** X17. The preempted holder.  When [acquireLock] preempts a live lock, the
    status of the resource shows the new holder at once; the preempted caller
    is not put in the queue (a caller without a position keeps position 0);
    and a release it attempts afterwards is refused with a
    [ConflictException] naming the new holder, and changes nothing. *)
Theorem preempted_holder_is_out now agentId resource priority s held :
  locks s !! resource = Some held →
  BusinessLock.expiresAt held > now →
  BusinessLock.lockedBy held ≠ agentId →
  default 0 priority > BusinessLock.priority held →
  let s' := snd (acquireLock now agentId resource priority s) in
  let lock := granted_lock now agentId resource (default 0 priority) in
  fst (getLockStatus now resource s') = Return (Some lock)
  ∧ (fst (getQueuePosition (BusinessLock.lockedBy held) resource s) = Return 0 →
     fst (getQueuePosition (BusinessLock.lockedBy held) resource s')
     = Return 0)
  ∧ ∀ t, releaseLock t (BusinessLock.lockedBy held) resource s'
         = (Throw (ConflictException
                     ("Lock on " +:+ resource +:+ " is owned by " +:+ agentId
                      +:+ ", not " +:+ BusinessLock.lockedBy held)), s').
Proof.
  intros Hheld Hlive Hother Hgt s' lock. subst s' lock.
  rewrite acquireLock_eq, Hheld. cbv zeta.
  destruct (decide (_ ∧ _)) as [_|Hn]; [|by destruct Hn].
  destruct (decide (_ > _)) as [_|?]; [|done]. cbn [snd].
  set (s' := {| locks := _; queue := _; console := _ |}).
  assert (locks s' !! resource
          = Some (granted_lock now agentId resource (default 0 priority)))
    as Hlock by (subst s'; simpl; by rewrite lookup_insert_eq).
  split_and!.
  - rewrite getLockStatus_eq, Hlock. simpl. destruct (decide _); [done|lia].
  - rewrite !getQueuePosition_eq. cbn [fst]. subst s'. cbn [queue].
    destruct (list_find (entry_of (BusinessLock.lockedBy held) resource)
                (queue s)) as [[j e]|] eqn:Hfind;
      [intros [= Habs]; lia|intros _].
    apply list_find_None in Hfind.
    rewrite (proj2 (list_find_None
                      (entry_of (BusinessLock.lockedBy held) resource) _));
      [done|].
    destruct (list_find (entry_of agentId resource) (queue s)) as [[i e]|];
      [by apply Forall_delete|done].
  - intros t.
    by rewrite (releaseLock_conflict t (BusinessLock.lockedBy held) resource
                  s' _ Hlock) by (simpl; congruence).
Qed.

Lemma preempted_holder_is_out_witness :
  releaseLock 2000 "a1" "db:accounts"
    (snd (acquireLock 1000 "a2" "db:accounts" (Some 10) held_by_a1))
  = (Throw (ConflictException "Lock on db:accounts is owned by a2, not a1"),
     snd (acquireLock 1000 "a2" "db:accounts" (Some 10) held_by_a1)).
Proof.
  destruct (preempted_holder_is_out 1000 "a2" "db:accounts" (Some 10)
              held_by_a1 (granted_lock 0 "a1" "db:accounts" 5))
    as (_ & _ & Hrelease).
  - vm_compute. reflexivity.
  - vm_compute. reflexivity.
  - vm_compute. discriminate.
  - vm_compute. reflexivity.
  - exact (Hrelease 2000).
Defined.
